(** * better-hub: document outline and image proxy

    A shallow embedding of
    - [apps/web/src/components/repo/document-outline.tsx]
      (heading extraction, tree building, flattening, filtering, keyboard
      navigation, rendering decisions, session persistence),
    - the image-proxy route handler [GET], and
    - the workflow-run job page.

    Conventions of the embedding.
    - Document text (the [textContent] of an element, the text of a
      heading, the filter query) is a [jsstring]: the list of its UTF-16
      code units.  The strings that the code only compares, tests for
      emptiness and concatenates (element ids, key names, header names and
      values, URLs, storage keys) are [string]s.
    - Numbers that the code only uses as integers (heading levels,
      indices, HTTP statuses) are in [Z] or [nat].
    - A JavaScript object that is mutated through several references (the
      heading nodes of [buildTree]) lives in an explicit heap and is named
      by its address.
    - Built-ins of the engine and of the framework are parameters
      ([String.prototype.toLowerCase], [new URL], [fetch],
      [getGitHubToken]) or are written out ([trim], [includes],
      [NextResponse.json] with the statuses it refuses). *)

From Stdlib Require Import ZArith Lia Ascii String List Bool.
From stdpp Require Import base option list strings pretty gmap.

Set Warnings "-register-all".

Local Open Scope Z_scope.

(* ===================================================================== *)
(** * Document text *)
(* ===================================================================== *)

(** A JavaScript string as the sequence of its UTF-16 code units. *)
Abbreviation jsstring := (list Z) (only parsing).

Definition code (c : ascii) : Z := Z.of_N (N_of_ascii c).

(** The text of a literal of Basic Latin characters. *)
Definition js (s : string) : jsstring := code <$> list_ascii_of_string s.

(* ===================================================================== *)
(** * Heading trees *)
(* ===================================================================== *)

(** [interface HeadingNode { id; text; level; children }] *)
Inductive HeadingNode : Type :=
  mkHeadingNode {
    id : string;
    text : jsstring;
    level : Z;
    children : list HeadingNode
  }.

(** The element type of the [flat] array:
    [{ id: string; text: string; level: number }]. *)
Record FlatHeading : Type :=
  mkFlat { flat_id : string; flat_text : jsstring; flat_level : Z }.

Definition entry (n : HeadingNode) : FlatHeading :=
  mkFlat (id n) (text n) (level n).

(** Structural induction for the nested type. *)
Section HeadingNode_ind.
Variable P : HeadingNode -> Prop.
Hypothesis step :
  forall i t l cs, Forall P cs -> P (mkHeadingNode i t l cs).

Fixpoint HeadingNode_forall (n : HeadingNode) : P n :=
  match n with
  | mkHeadingNode i t l cs =>
      step i t l cs
        ((fix go (cs : list HeadingNode) : Forall P cs :=
            match cs with
            | [] => @List.Forall_nil _ P
            | c :: cs' => @List.Forall_cons _ P c cs' (HeadingNode_forall c) (go cs')
            end) cs)
  end.
End HeadingNode_ind.

(** [n] occurs in the forest [ts], at any depth. *)
Inductive occurs (n : HeadingNode) : list HeadingNode -> Prop :=
| occurs_here ts : occurs n (n :: ts)
| occurs_below t ts : occurs n (children t) -> occurs n (t :: ts)
| occurs_later t ts : occurs n ts -> occurs n (t :: ts).

(* --------------------------------------------------------------------- *)
(** ** buildTree *)
(* --------------------------------------------------------------------- *)

(** The nodes that [buildTree] allocates are shared between [root], the
    [children] arrays and the [stack], and a node's [children] array is
    extended after the node has been stored elsewhere.  The heap maps an
    address (the allocation order) to the object; a [children] array
    holds addresses. *)
Abbreviation addr := nat (only parsing).

Record Obj : Type :=
  mkObj { o_id : string; o_text : jsstring; o_level : Z; o_children : list addr }.

(** [o.children.push(n)] *)
Definition push_child (n : addr) (o : Obj) : Obj :=
  mkObj (o_id o) (o_text o) (o_level o) (o_children o ++ [n]).

(** The three mutable variables of the loop.  The head of [stack] is the
    array's last element [stack[stack.length - 1]]. *)
Record BuildState : Type :=
  mkBuild { heap : list Obj; root : list addr; stack : list (addr * Z) }.

(** [while (stack.length > 0 && stack[stack.length - 1].level >= item.level)
      stack.pop();] *)
Fixpoint pop_while (lvl : Z) (st : list (addr * Z)) : list (addr * Z) :=
  match st with
  | [] => []
  | (a, l) :: rest => if l >=? lvl then pop_while lvl rest else st
  end.

(** One iteration of [for (const item of flat)]. *)
Definition buildTree_step (st : BuildState) (item : FlatHeading) : BuildState :=
  let node := length (heap st) in
  let h := heap st ++ [mkObj (flat_id item) (flat_text item) (flat_level item) []] in
  match pop_while (flat_level item) (stack st) with
  | [] =>
      mkBuild h (root st ++ [node]) [(node, flat_level item)]
  | (top, l) :: rest =>
      mkBuild (alter (push_child node) top h) (root st)
              ((node, flat_level item) :: (top, l) :: rest)
  end.

Definition buildTree_loop (flat : list FlatHeading) : BuildState :=
  fold_left buildTree_step flat (mkBuild [] [] []).

(** Reading the value of a node reference: the node with its children,
    recursively.  [fuel] bounds the depth. *)
Fixpoint reify (fuel : nat) (h : list Obj) (a : addr) : option HeadingNode :=
  match fuel with
  | O => None
  | S fuel' =>
      match h !! a with
      | None => None
      | Some o =>
          match mapM (reify fuel' h) (o_children o) with
          | None => None
          | Some ks => Some (mkHeadingNode (o_id o) (o_text o) (o_level o) ks)
          end
      end
  end.

(** [function buildTree(flat): HeadingNode[]]: the value of [root] when the
    loop has ended. *)
Definition buildTree (flat : list FlatHeading) : option (list HeadingNode) :=
  let st := buildTree_loop flat in
  mapM (reify (length (heap st)) (heap st)) (root st).

(* --------------------------------------------------------------------- *)
(** ** flattenTree *)
(* --------------------------------------------------------------------- *)

(** [walk(list)] with the array [result] passed through:
    [for (const n of list) { result.push(n); walk(n.children); }] *)
Fixpoint walk_node (n : HeadingNode) (result : list HeadingNode) : list HeadingNode :=
  match n with
  | mkHeadingNode _ _ _ cs =>
      (fix walk (l : list HeadingNode) (result : list HeadingNode) :=
         match l with
         | [] => result
         | c :: l' => walk l' (walk_node c result)
         end) cs (result ++ [n])
  end.

Definition walk (l : list HeadingNode) (result : list HeadingNode) : list HeadingNode :=
  fold_left (fun r n => walk_node n r) l result.

Definition flattenTree (nodes : list HeadingNode) : list HeadingNode :=
  walk nodes [].


(* --------------------------------------------------------------------- *)
(** ** Specification vocabulary for heading trees *)
(* --------------------------------------------------------------------- *)

(** Pre-order listing of a node and of a forest. *)
Fixpoint preorder_node (n : HeadingNode) : list HeadingNode :=
  n :: flat_map preorder_node (children n).

Definition preorder (ts : list HeadingNode) : list HeadingNode :=
  flat_map preorder_node ts.

Definition node_of (o : Obj) (ks : list HeadingNode) : HeadingNode :=
  mkHeadingNode (o_id o) (o_text o) (o_level o) ks.

Definition item_of (o : Obj) : FlatHeading :=
  mkFlat (o_id o) (o_text o) (o_level o).

(** [repr_forest h s ts cs e]: the objects at the addresses [s], ..., [e-1]
    of [h] are the nodes of the forest [ts] in pre-order, and [cs] are the
    addresses of its roots. *)
Inductive repr_forest (h : list Obj) :
  nat -> list HeadingNode -> list addr -> nat -> Prop :=
| repr_nil s : repr_forest h s [] [] s
| repr_cons s o ks m ts cs e :
    h !! s = Some o ->
    repr_forest h (S s) ks (o_children o) m ->
    repr_forest h m ts cs e ->
    repr_forest h s (node_of o ks :: ts) (s :: cs) e.

(** The loop invariant.  [open] is the stack from its bottom to its top.
    The array [cs] (the root array, or the children of the entry below)
    holds finished trees and, last, the next stack entry, whose own
    children array has the same shape; the top entry has finished
    children only, up to the end of the heap. *)
Fixpoint spine (h : list Obj) (s : nat) (cs : list addr)
    (open : list (addr * Z)) : Prop :=
  match open with
  | [] => exists ts, repr_forest h s ts cs (length h)
  | (a, _) :: open' =>
      exists ts fin o,
        cs = fin ++ [a] /\ repr_forest h s ts fin a /\
        h !! a = Some o /\ spine h (S a) (o_children o) open'
  end.

(** Every child array holds strictly deeper nodes, and a stack entry
    records the level of its node. *)
Definition levels_ok (h : list Obj) : Prop :=
  forall a o c, h !! a = Some o -> In c (o_children o) ->
    exists oc, h !! c = Some oc /\ o_level o < o_level oc.

Definition stack_ok (h : list Obj) (st : list (addr * Z)) : Prop :=
  Forall (fun e => exists o, h !! (fst e) = Some o /\ o_level o = snd e) st.

Record build_inv (seen : list FlatHeading) (st : BuildState) : Prop :=
  mkInv {
    inv_spine : spine (heap st) 0 (root st) (rev (stack st));
    inv_levels : levels_ok (heap st);
    inv_stack : stack_ok (heap st) (stack st);
    inv_items : item_of <$> heap st = seen
  }.

(** Children are strictly deeper than their parent, at every depth. *)
Inductive strictly_deeper : HeadingNode -> Prop :=
| deeper_node n :
    Forall (fun c => level n < level c) (children n) ->
    Forall strictly_deeper (children n) ->
    strictly_deeper n.

(* ===================================================================== *)
(** * Strings *)
(* ===================================================================== *)

(** ** [String.prototype.toLowerCase]

    ECMA-262 defines it by the default case conversion of Unicode, which
    is not a map of code units: a capital sigma goes to U+03C2 in final
    position and to U+03C3 elsewhere (the rule Final_Sigma of
    SpecialCasing.txt), and U+0130 goes to two code units.  It is a
    built-in of the engine, not code of the repository: the embedding
    takes it as a parameter, of which the proofs use only that the empty
    string stays empty. *)
Class Engine : Type :=
  mkEngine {
    toLowerCase : jsstring -> jsstring;
    toLowerCase_empty : toLowerCase [] = []
  }.

(** ** An engine for the examples

    [toLowerCase] on the strings of Basic Latin, Latin-1 Supplement and
    the Greek letters U+0391-U+03A9 and U+03B1-U+03C9, from the mappings
    of UnicodeData.txt and the rule Final_Sigma.  The closed examples of
    this file are evaluated with it, on strings of this range; the other
    code units are outside of what it describes. *)

(** The upper-case letters of the range; each is 32 below its lower-case
    letter. *)
Definition excerpt_upper (c : Z) : bool :=
  ((65 <=? c) && (c <=? 90))
  || ((192 <=? c) && (c <=? 222) && negb (c =? 215))
  || ((913 <=? c) && (c <=? 937) && negb (c =? 930)).

(** The property Cased, in the range. *)
Definition excerpt_cased (c : Z) : bool :=
  ((65 <=? c) && (c <=? 90)) || ((97 <=? c) && (c <=? 122))
  || (c =? 170) || (c =? 181) || (c =? 186)
  || ((192 <=? c) && (c <=? 255) && negb (c =? 215) && negb (c =? 247))
  || ((913 <=? c) && (c <=? 937) && negb (c =? 930))
  || ((945 <=? c) && (c <=? 969)).

(** The property Case_Ignorable, in the range. *)
Definition excerpt_case_ignorable (c : Z) : bool :=
  bool_decide (c ∈ [39; 46; 58; 94; 96; 168; 173; 175; 180; 183; 184]).

(** A cased letter after case-ignorable characters, reading away from the
    sigma. *)
Fixpoint excerpt_cased_next (s : jsstring) : bool :=
  match s with
  | [] => false
  | c :: s' =>
      excerpt_cased c || (excerpt_case_ignorable c && excerpt_cased_next s')
  end.

(** Final_Sigma: the sigma is preceded by a cased letter and case-ignorable
    characters, and is not followed by case-ignorable characters and a
    cased letter.  [before] is what precedes the sigma, nearest first. *)
Definition excerpt_final_sigma (before after : jsstring) : bool :=
  excerpt_cased_next before && negb (excerpt_cased_next after).

Fixpoint excerpt_lower (before s : jsstring) : jsstring :=
  match s with
  | [] => []
  | c :: s' =>
      (if c =? 931
       then (if excerpt_final_sigma before s' then 962 else 963)
       else if excerpt_upper c then c + 32 else c)
      :: excerpt_lower (c :: before) s'
  end.

Definition excerpt_engine : Engine := mkEngine (excerpt_lower []) eq_refl.

(** ** [String.prototype.includes] *)

(** [q] is read at the start of [s]. *)
Fixpoint starts_with (q s : jsstring) : bool :=
  match q, s with
  | [], _ => true
  | _ :: _, [] => false
  | a :: q', b :: s' => (a =? b) && starts_with q' s'
  end.

(** [s.includes(q)]: [q] is read at some position of [s]. *)
Fixpoint includes (s q : jsstring) : bool :=
  starts_with q s
  || match s with
     | [] => false
     | _ :: s' => includes s' q
     end.

(* --------------------------------------------------------------------- *)
(** ** filterTree *)
(* --------------------------------------------------------------------- *)

Section filterTree.
Context {engine : Engine}.

(** [function matches(node)], with [q] the lower-cased query of the
    enclosing call. *)
Fixpoint matches (q : jsstring) (node : HeadingNode) : bool :=
  match node with
  | mkHeadingNode _ t _ cs =>
      if includes (toLowerCase t) q then true else existsb (matches q) cs
  end.

(** The loop of [prune]: [for (const node of list) if (keep(node))
    result.push(rebuild(node))]. *)
Definition prune_loop (keep : HeadingNode -> bool)
    (rebuild : HeadingNode -> HeadingNode) :
    list HeadingNode -> list HeadingNode :=
  fix go (lst : list HeadingNode) : list HeadingNode :=
    match lst with
    | [] => []
    | node :: rest =>
        if keep node then rebuild node :: go rest else go rest
    end.

(** [{ ...node, children: prune(node.children) }] *)
Fixpoint pruned_copy (q : jsstring) (node : HeadingNode) : HeadingNode :=
  match node with
  | mkHeadingNode i t l cs =>
      mkHeadingNode i t l (prune_loop (matches q) (pruned_copy q) cs)
  end.

(** [function prune(list)] *)
Definition prune (q : jsstring) (lst : list HeadingNode) : list HeadingNode :=
  prune_loop (matches q) (pruned_copy q) lst.

(** [function filterTree(nodes, query)] *)
Definition filterTree (nodes : list HeadingNode) (query : jsstring)
    : list HeadingNode :=
  let q := toLowerCase query in
  prune q nodes.

(** ** Vocabulary of the filter's specification *)

(** [text] contains [query] as a substring, letter case ignored: some
    substring of [text] equals [query] up to case. *)
Definition ci_contains (text query : jsstring) : Prop :=
  exists pre mid post,
    text = pre ++ mid ++ post /\ toLowerCase mid = toLowerCase query.

(** [text] in lower case contains [query] in lower case as a substring. *)
Definition lower_contains (text query : jsstring) : Prop :=
  exists pre post, toLowerCase text = pre ++ toLowerCase query ++ post.

(** The node itself or one of its descendants contains the query, both
    in lower case. *)
Definition kept (query : jsstring) (n : HeadingNode) : Prop :=
  lower_contains (text n) query \/
  exists d, occurs d (children n) /\ lower_contains (text d) query.

End filterTree.

(* ===================================================================== *)
(** * Heading extraction *)
(* ===================================================================== *)

(** The part of a DOM element that [extractHeadings] reads and writes. *)
Module DOM.
Record Element : Type :=
  mkElement { tagName : string; textContent : option jsstring; id : string }.
End DOM.

(** White space of [trim] and of the regular expression class [\s]: the
    WhiteSpace and LineTerminator code points of ECMA-262, that is TAB,
    LF, VT, FF, CR, SP, NBSP, U+1680, U+2000-U+200A, U+2028, U+2029,
    U+202F, U+205F, U+3000 and U+FEFF. *)
Definition isWhiteSpace (c : Z) : bool :=
  ((9 <=? c) && (c <=? 13)) || (c =? 32) || (c =? 160) || (c =? 5760)
  || ((8192 <=? c) && (c <=? 8202)) || (c =? 8232) || (c =? 8233)
  || (c =? 8239) || (c =? 8287) || (c =? 12288) || (c =? 65279).

Fixpoint trimStart (s : jsstring) : jsstring :=
  match s with
  | [] => []
  | c :: s' => if isWhiteSpace c then trimStart s' else s
  end.

Fixpoint trimEnd (s : jsstring) : jsstring :=
  match s with
  | [] => []
  | c :: s' =>
      match trimEnd s' with
      | [] => if isWhiteSpace c then [] else [c]
      | r => c :: r
      end
  end.

(** [s.trim()] *)
Definition trim (s : jsstring) : jsstring := trimEnd (trimStart s).

(** [s.replace(/\s+/g, " ")]: every maximal run of white space becomes one
    space.  [in_run] tells that the previous character was white space,
    whose run has been replaced already. *)
Fixpoint replace_runs (in_run : bool) (s : jsstring) : jsstring :=
  match s with
  | [] => []
  | c :: s' =>
      if isWhiteSpace c
      then (if in_run then replace_runs true s'
            else 32 :: replace_runs true s')
      else c :: replace_runs false s'
  end.

Definition replace_whitespace (s : jsstring) : jsstring := replace_runs false s.

(** [el.textContent?.trim().replace(/\s+/g, " ") ?? ""] *)
Definition heading_text (el : DOM.Element) : jsstring :=
  match DOM.textContent el with
  | Some t => replace_whitespace (trim t)
  | None => []
  end.

(** [parseInt(c, 10)] for [c] a string of at most one character, as
    [el.tagName[1]] is; [None] is [NaN]. *)
Definition parseInt (c : option ascii) : option Z :=
  match c with
  | Some c =>
      let n := code c in
      if (48 <=? n) && (n <=? 57) then Some (n - 48) else None
  | None => None
  end.

(** The elements that the selector ["h1, h2, h3, h4, h5, h6"] matches; in
    an HTML document their [tagName] is in upper case. *)
Definition heading_tags : list string := ["H1"; "H2"; "H3"; "H4"; "H5"; "H6"].

(** [container.querySelectorAll("h1, h2, h3, h4, h5, h6")], with the
    container given by its descendant elements in document order. *)
Definition querySelectorAll (container : list DOM.Element) : list DOM.Element :=
  filter (fun el => DOM.tagName el ∈ heading_tags) container.

(** [let id = el.id; if (!id) { id = `heading-${index}`; el.id = id; }] *)
Definition heading_id (index : nat) (el : DOM.Element) : string :=
  if decide (DOM.id el = "") then "heading-" +:+ pretty index else DOM.id el.

(** The body of the [forEach] callback: the element with its id set, and
    the entry pushed to [flat], if one is.  The model has no [NaN] level:
    the result is [None] if [parseInt] gives none. *)
Definition heading_of (index : nat) (el : DOM.Element)
    : option (DOM.Element * option FlatHeading) :=
  match parseInt (String.get 1 (DOM.tagName el)) with
  | None => None
  | Some level =>
      let text := heading_text el in
      let id := heading_id index el in
      Some (DOM.mkElement (DOM.tagName el) (DOM.textContent el) id,
            if decide (text = []) then None else Some (mkFlat id text level))
  end.

(** [elements.forEach((el, index) => ...)], from [index] on. *)
Fixpoint forEach_heading (index : nat) (elements : list DOM.Element)
    : option (list DOM.Element * list FlatHeading) :=
  match elements with
  | [] => Some ([], [])
  | el :: rest =>
      match heading_of index el with
      | None => None
      | Some (el', pushed) =>
          match forEach_heading (S index) rest with
          | None => None
          | Some (els, flat) =>
              Some (el' :: els,
                    match pushed with Some f => f :: flat | None => flat end)
          end
      end
  end.

(** [function extractHeadings(container)]: the heading elements with their
    ids assigned, and the tree. *)
Definition extractHeadings (container : list DOM.Element)
    : option (list DOM.Element * list HeadingNode) :=
  match forEach_heading 0 (querySelectorAll container) with
  | None => None
  | Some (els, flat) =>
      match buildTree flat with
      | None => None
      | Some tree => Some (els, tree)
      end
  end.

(** A string is whitespace-normalized: it neither starts nor ends with
    white space, and a white space character in it is a space that is
    followed by a character that is not white space. *)
Definition normalized (s : jsstring) : Prop :=
  (forall c s', s = c :: s' -> isWhiteSpace c = false) /\
  (forall s' c, s = s' ++ [c] -> isWhiteSpace c = false) /\
  (forall pre c post, s = pre ++ c :: post -> isWhiteSpace c = true ->
     c = 32 /\
     forall d post', post = d :: post' -> isWhiteSpace d = false).

(* ===================================================================== *)
(** * The DocumentOutline component *)
(* ===================================================================== *)

Definition SESSION_KEY : string := "doc-outline-expanded".

(** The [useState] cells of the component. *)
Record State : Type :=
  mkState {
    headings : list HeadingNode;
    activeId : option string;
    isExpanded : bool;
    searchQuery : jsstring;
    focusedIndex : Z;
    mobileOpen : bool
  }.

Definition setHeadings (v : list HeadingNode) (st : State) : State :=
  mkState v (activeId st) (isExpanded st) (searchQuery st) (focusedIndex st)
          (mobileOpen st).
Definition setActiveId (v : option string) (st : State) : State :=
  mkState (headings st) v (isExpanded st) (searchQuery st) (focusedIndex st)
          (mobileOpen st).
Definition setIsExpanded (v : bool) (st : State) : State :=
  mkState (headings st) (activeId st) v (searchQuery st) (focusedIndex st)
          (mobileOpen st).
Definition setSearchQuery (v : jsstring) (st : State) : State :=
  mkState (headings st) (activeId st) (isExpanded st) v (focusedIndex st)
          (mobileOpen st).
Definition setFocusedIndex (v : Z) (st : State) : State :=
  mkState (headings st) (activeId st) (isExpanded st) (searchQuery st) v
          (mobileOpen st).
Definition setMobileOpen (v : bool) (st : State) : State :=
  mkState (headings st) (activeId st) (isExpanded st) (searchQuery st)
          (focusedIndex st) v.

(** A string used as a condition: the empty string is falsy. *)
Definition truthy (s : string) : bool := negb (String.eqb s "").

Definition truthy_text (s : jsstring) : bool :=
  match s with [] => false | _ :: _ => true end.

(** [String(b)] for a boolean. *)
Definition String_of_bool (b : bool) : string := if b then "true" else "false".

(** ** Session storage *)

(** The initializer of [isExpanded]:
    [if (typeof window === "undefined") return true;
     const stored = sessionStorage.getItem(SESSION_KEY);
     return stored !== null ? stored === "true" : true;] *)
Definition initial_isExpanded (window_defined : bool)
    (sessionStorage : gmap string string) : bool :=
  if negb window_defined then true
  else match sessionStorage !! SESSION_KEY with
       | Some stored => String.eqb stored "true"
       | None => true
       end.

Definition initial_state (window_defined : bool)
    (sessionStorage : gmap string string) : State :=
  mkState [] None (initial_isExpanded window_defined sessionStorage) [] (-1) false.

(** The effect "Persist expanded state":
    [if (typeof window !== "undefined")
       sessionStorage.setItem(SESSION_KEY, String(isExpanded));] *)
Definition persist_expanded (window_defined : bool) (st : State)
    (sessionStorage : gmap string string) : gmap string string :=
  if window_defined
  then <[SESSION_KEY := String_of_bool (isExpanded st)]> sessionStorage
  else sessionStorage.

Section component.
Context {engine : Engine}.

(** ** Derived values *)

(** [searchQuery ? filterTree(headings, searchQuery) : headings] *)
Definition displayTree (st : State) : list HeadingNode :=
  if truthy_text (searchQuery st) then filterTree (headings st) (searchQuery st)
  else headings st.

Definition flatList (st : State) : list HeadingNode :=
  flattenTree (displayTree st).

(** ** Event handlers *)

(** What a handler asks of the browser. *)
Inductive Effect : Type :=
| PreventDefault
| StopPropagation
| FocusSearchInput
| ReplaceHash (id : string)
| ScrollIntoView (id : string).

(** [navigateTo(id)]; [document] tells whether [getElementById] finds an
    element. *)
Definition navigateTo (document : string -> bool) (i : string) (st : State)
    : State * list Effect :=
  if document i
  then (setMobileOpen false (setActiveId (Some i) st),
        [ReplaceHash i; ScrollIntoView i])
  else (st, []).

(** [handleKeyDown(e)], by [e.key]. *)
Definition handleKeyDown (document : string -> bool) (key : string) (st : State)
    : State * list Effect :=
  let flat := flatList st in
  let len := Z.of_nat (length flat) in
  if len =? 0 then (st, [])
  else if String.eqb key "ArrowDown" then
    (setFocusedIndex (Z.min (focusedIndex st + 1) (len - 1)) st, [PreventDefault])
  else if String.eqb key "ArrowUp" then
    (setFocusedIndex (Z.max (focusedIndex st - 1) 0) st, [PreventDefault])
  else if String.eqb key "Enter" || String.eqb key " " then
    if (0 <=? focusedIndex st) && (focusedIndex st <? len) then
      match flat !! Z.to_nat (focusedIndex st) with
      | Some node =>
          let (st', effs) := navigateTo document (id node) st in
          (st', PreventDefault :: effs)
      | None => (st, [PreventDefault])
      end
    else (st, [PreventDefault])
  else if String.eqb key "Escape" then
    if truthy_text (searchQuery st) then
      (setSearchQuery [] st, [PreventDefault; FocusSearchInput])
    else if mobileOpen st then (setMobileOpen false st, [PreventDefault])
    else (st, [PreventDefault])
  else if String.eqb key "Home" then
    (setFocusedIndex 0 st, [PreventDefault])
  else if String.eqb key "End" then
    (setFocusedIndex (len - 1) st, [PreventDefault])
  else (st, []).

(** [onKeyDown] of the filter input:
    [if (e.key === "Escape" && searchQuery) { e.preventDefault();
       e.stopPropagation(); setSearchQuery(""); }] *)
Definition searchKeyDown (key : string) (st : State) : State * list Effect :=
  if String.eqb key "Escape" && truthy_text (searchQuery st)
  then (setSearchQuery [] st, [PreventDefault; StopPropagation])
  else (st, []).

(** [onKeyDown] of the drawer overlay:
    [if (e.key === "Escape") setMobileOpen(false)] *)
Definition overlayKeyDown (key : string) (st : State) : State :=
  if String.eqb key "Escape" then setMobileOpen false st else st.

(** Where an [outlineContent] is mounted: in the desktop pane, or in the
    mobile drawer, inside the overlay. *)
Inductive Place : Type := InPane | InDrawer.

Definition stops (effs : list Effect) : bool :=
  existsb (fun e => match e with StopPropagation => true | _ => false end) effs.

(** A key press bubbles from the element it is handled on to the
    overlay of the drawer, if it is in the drawer and the handler did not
    stop its propagation.  The handlers read the state of the last
    render; the overlay's handler reads none, and its update is applied
    with the first handler's. *)
Definition bubble (place : Place) (key : string) (handled : State * list Effect)
    : State :=
  match place with
  | InPane => fst handled
  | InDrawer =>
      if stops (snd handled) then fst handled
      else overlayKeyDown key (fst handled)
  end.

(** The events of the component that change its state. *)
Inductive Event : Type :=
| TreeKeyDown (place : Place) (key : string)   (* a key press on the tree *)
| SearchChange (value : jsstring)    (* onChange of the filter input *)
| SearchKeyDown (place : Place) (key : string) (* a key press on the filter input *)
| DrawerKeyDown (key : string)       (* a key press elsewhere in the drawer *)
| ClearClick                         (* the clear button of the filter *)
| ItemClick (id : string)            (* an outline item or a rail dot *)
| ToggleClick                        (* the expand / collapse button *)
| MobileOpenClick
| MobileCloseClick                   (* the close button, or the overlay *)
| HeadingsExtracted (hs : list HeadingNode)   (* setHeadings(extractHeadings(ghmd)) *)
| ActiveHeading (id : string).       (* scroll tracking, deep link *)

Definition handle (document : string -> bool) (ev : Event) (st : State) : State :=
  match ev with
  | TreeKeyDown place key => bubble place key (handleKeyDown document key st)
  | SearchChange value => setFocusedIndex (-1) (setSearchQuery value st)
  | SearchKeyDown place key => bubble place key (searchKeyDown key st)
  | DrawerKeyDown key => overlayKeyDown key st
  | ClearClick => setSearchQuery [] st
  | ItemClick i => fst (navigateTo document i st)
  | ToggleClick => setIsExpanded (negb (isExpanded st)) st
  | MobileOpenClick => setMobileOpen true st
  | MobileCloseClick => setMobileOpen false st
  | HeadingsExtracted hs => setHeadings hs st
  | ActiveHeading i => setActiveId (Some i) st
  end.

(** The component in its browser tab: its state and the tab's session
    storage. *)
Record Tab : Type :=
  mkTab { tab_state : State; tab_storage : gmap string string }.

(** Mounting: the state is initialized, then every effect runs. *)
Definition mount (window_defined : bool) (sessionStorage : gmap string string)
    : Tab :=
  let st := initial_state window_defined sessionStorage in
  mkTab st (persist_expanded window_defined st sessionStorage).

(** An event, then the effects whose dependencies changed: the effect with
    the dependency [[isExpanded]] is the only one that writes. *)
Definition step (window_defined : bool) (document : string -> bool)
    (ev : Event) (tab : Tab) : Tab :=
  let st := handle document ev (tab_state tab) in
  mkTab st
    (if Bool.eqb (isExpanded st) (isExpanded (tab_state tab))
     then tab_storage tab
     else persist_expanded window_defined st (tab_storage tab)).

(** ** Rendering *)

(** The tree region of [outlineContent]. *)
Inductive TreeRegion : Type :=
| Placeholder (query : jsstring)     (* No headings match "query" *)
| Items (nodes : list HeadingNode).  (* one FlatOutlineItem per node *)

(** [outlineContent]: the filter input (with its value), if shown, and the
    tree region. *)
Record OutlineContent : Type :=
  mkContent { search_input : option jsstring; tree_region : TreeRegion }.

Inductive DesktopPane : Type :=
| Rail (dots : list HeadingNode)          (* collapsed: the icon rail *)
| Expanded (content : OutlineContent).

Inductive MobilePart : Type :=
| FloatingButton
| Drawer (content : OutlineContent).

Record View : Type := mkView { desktop : DesktopPane; mobile : MobilePart }.

Definition outlineContent (st : State) : OutlineContent :=
  mkContent
    (if isExpanded st then Some (searchQuery st) else None)
    (if (length (flatList st) =? 0)%nat && truthy_text (searchQuery st)
     then Placeholder (searchQuery st)
     else Items (flatList st)).

(** What [DocumentOutline] returns; [None] is [null]. *)
Definition DocumentOutline (visible : bool) (st : State) : option View :=
  if negb visible || (length (headings st) =? 0)%nat then None
  else
    Some (mkView
            (if isExpanded st then Expanded (outlineContent st)
             else Rail (take 40 (flattenTree (headings st))))
            (if mobileOpen st then Drawer (outlineContent st)
             else FloatingButton)).

(** The outline contents that a view shows. *)
Definition shown_contents (v : View) : list OutlineContent :=
  match desktop v with Expanded c => [c] | Rail _ => [] end
  ++ match mobile v with Drawer c => [c] | FloatingButton => [] end.

End component.

(* ===================================================================== *)
(** * The image-proxy route *)
(* ===================================================================== *)

(** [const ALLOWED_HOSTS = new Set([...])] *)
Definition ALLOWED_HOSTS : gset string :=
  {[ "github.com";
     "raw.githubusercontent.com";
     "private-user-images.githubusercontent.com";
     "github-production-user-asset-6210df.s3.amazonaws.com" ]}.

(** The part of a parsed [URL] that the handler reads. *)
Record URL : Type := mkURL { hostname : string }.

(** The request: [request.nextUrl.searchParams], in order. *)
Record NextRequest : Type := mkRequest { searchParams : list (string * string) }.

(** [searchParams.get(name)]: the first value of [name], or [null]. *)
Fixpoint searchParams_get (name : string) (params : list (string * string))
    : option string :=
  match params with
  | [] => None
  | (k, v) :: rest => if String.eqb k name then Some v else searchParams_get name rest
  end.

(** The response of the upstream [fetch]. *)
Module Response.
Record t : Type :=
  mk { status : Z;
       content_type : option string;       (* headers.get("content-type") *)
       arrayBuffer : option (list Byte.byte)  (* [None]: reading the body throws *) }.

(** [res.ok] *)
Definition ok (res : t) : bool := (200 <=? status res) && (status res <=? 299).
End Response.

(** The second argument of [fetch]. *)
Record RequestInit : Type :=
  mkInit { init_headers : list (string * string); init_redirect : string }.

Inductive FetchResult : Type :=
| FetchThrows
| FetchResolves (res : Response.t).

(** What the handler calls: [new URL(s)] ([None] when it throws),
    [await getGitHubToken()] ([None] for [null]) and [fetch]. *)
Record Platform : Type :=
  mkPlatform {
    URL_parse : string -> option URL;
    getGitHubToken : option string;
    fetch : string -> RequestInit -> FetchResult
  }.

(** The response of the handler. *)
Module NextResponse.
Inductive Body : Type :=
| Json (fields : list (string * string))
| Buffer (bytes : list Byte.byte).

Record t : Type :=
  mk { status : Z; headers : list (string * string); body : Body }.

(** The response that [NextResponse.json({ error }, { status })] builds,
    when it builds one. *)
Definition json_error (error : string) (status : Z) : t :=
  mk status [("content-type", "application/json")] (Json [("error", error)]).

(** The statuses that the constructor of a response with a body refuses:
    it throws a RangeError for a status outside 200-599, and a TypeError
    for a null-body status (101, 103, 204, 205 and 304, the first two
    outside the range already). *)
Definition refused_status (status : Z) : bool :=
  negb ((200 <=? status) && (status <=? 599))
  || (status =? 204) || (status =? 205) || (status =? 304).

(** [NextResponse.json({ error }, { status })]; [None] when it throws.
    The handler's literal statuses 400, 401, 403 and 502 are not
    refused, and for them [GET] is written with [json_error]. *)
Definition json (error : string) (status : Z) : option t :=
  if refused_status status then None else Some (json_error error status).

(** [headers.get(name)] *)
Definition header (name : string) (r : t) : option string :=
  searchParams_get name (headers r).
End NextResponse.

(** The [init] of the upstream request. *)
Definition upstream_init (token : string) : RequestInit :=
  mkInit [("Authorization", "token " +:+ token); ("Accept", "image/*,*/*")]
         "follow".

(** [res.headers.get("content-type") || "application/octet-stream"] *)
Definition contentType_of (res : Response.t) : string :=
  match Response.content_type res with
  | Some ct => if truthy ct then ct else "application/octet-stream"
  | None => "application/octet-stream"
  end.

(** The [try] block, after the token has been obtained; what throws in
    it ([fetch], [NextResponse.json], [res.arrayBuffer()]) is answered by
    the [catch]. *)
Definition proxy (p : Platform) (url token : string) : NextResponse.t :=
  match fetch p url (upstream_init token) with
  | FetchThrows => NextResponse.json_error "Failed to fetch image" 502
  | FetchResolves res =>
      if negb (Response.ok res) then
        match NextResponse.json
                ("Upstream error (" +:+ pretty (Response.status res) +:+ ")")
                (Response.status res) with
        | Some response => response
        | None => NextResponse.json_error "Failed to fetch image" 502
        end
      else
        let contentType := contentType_of res in
        match Response.arrayBuffer res with
        | None => NextResponse.json_error "Failed to fetch image" 502
        | Some body =>
            NextResponse.mk 200
              [("Content-Type", contentType);
               ("Cache-Control", "public, max-age=3600, immutable")]
              (NextResponse.Buffer body)
        end
  end.

(** [export async function GET(request)] *)
Definition GET (p : Platform) (request : NextRequest) : NextResponse.t :=
  match searchParams_get "url" (searchParams request) with
  | None => NextResponse.json_error "Missing url parameter" 400
  | Some url =>
      if negb (truthy url) then
        NextResponse.json_error "Missing url parameter" 400
      else
        match URL_parse p url with
        | None => NextResponse.json_error "Invalid URL" 400
        | Some parsed =>
            if negb (bool_decide (hostname parsed ∈ ALLOWED_HOSTS)) then
              NextResponse.json_error "Host not allowed" 403
            else
              match getGitHubToken p with
              | None => NextResponse.json_error "Not authenticated" 401
              | Some token =>
                  if negb (truthy token) then
                    NextResponse.json_error "Not authenticated" 401
                  else proxy p url token
              end
        end
  end.

(** The body is a JSON object with an error message. *)
Definition is_error (r : NextResponse.t) : Prop :=
  exists message, NextResponse.body r = NextResponse.Json [("error", message)].

(** No token is available: [getGitHubToken] gave [null] or the empty
    string. *)
Definition no_token (p : Platform) : Prop :=
  getGitHubToken p = None \/ getGitHubToken p = Some "".

(* ===================================================================== *)
(** * Vocabulary of the proofs and example inputs *)
(* ===================================================================== *)

(** [h'] keeps every object of [h] at its address, with the same level. *)
Definition keeps_levels (h h' : list Obj) : Prop :=
  forall c oc, h !! c = Some oc ->
    exists oc', h' !! c = Some oc' /\ o_level oc' = o_level oc.

(** Every node of the tree passes the test of [matches]. *)
Inductive all_match {engine : Engine} (q : jsstring) : HeadingNode -> Prop :=
| all_match_node n :
    matches q n = true -> Forall (all_match q) (children n) -> all_match q n.

(** The last character of [s] is white space. *)
Fixpoint ends_ws (s : jsstring) : bool :=
  match s with
  | [] => false
  | [c] => isWhiteSpace c
  | _ :: s' => ends_ws s'
  end.

(** What an entry of [flat] is, for the heading element at position
    [index] of the selection. *)
Definition entry_of (index : nat) (el : DOM.Element) (f : FlatHeading) : Prop :=
  flat_text f = heading_text el /\ flat_text f <> [] /\
  flat_id f = heading_id index el /\
  parseInt (String.get 1 (DOM.tagName el)) = Some (flat_level f) /\
  1 <= flat_level f <= 6.

(** The keys that move the focus. *)
Definition navigation_keys : list string :=
  ["ArrowDown"; "ArrowUp"; "Home"; "End"].

(** The stored value is the flag's. *)
Definition in_sync (tab : Tab) : Prop :=
  tab_storage tab !! SESSION_KEY
  = Some (String_of_bool (isExpanded (tab_state tab))).

(** A panel that was collapsed while a query without a match was typed
    in. *)
Definition collapsed_with_query : State :=
  mkState [mkHeadingNode "intro" (js "Intro") 1 []] None false (js "zzz")
          (-1) false.

(** A platform for examples: a URL is ["https://" host "/" path], the
    session has the token ["t0k"], and every upstream answer is [answer]. *)
Fixpoint until_slash (s : string) : string :=
  match s with
  | EmptyString => EmptyString
  | String c s' => if Ascii.eqb c "/" then EmptyString else String c (until_slash s')
  end.

Definition example_parse (s : string) : option URL :=
  if String.prefix "https://" s
  then Some (mkURL (until_slash (String.substring 8 (String.length s) s)))
  else None.

Definition example_platform (answer : FetchResult) : Platform :=
  mkPlatform example_parse (Some "t0k") (fun _ _ => answer).

Definition example_request (url : string) : NextRequest :=
  mkRequest [("url", url)].

(** An upstream answer without a content type. *)
Definition untyped_answer : Response.t :=
  Response.mk 200 None (Some [Byte.x89; Byte.x50]).


(* ===================================================================== *)
(** * The outline of a flat heading list *)
(* ===================================================================== *)

(** The headings at the start of [flat] that are strictly deeper than
    [lvl], and what follows them. *)
Fixpoint deeper_run (lvl : Z) (flat : list FlatHeading)
    : list FlatHeading * list FlatHeading :=
  match flat with
  | [] => ([], [])
  | y :: rest =>
      if lvl <? flat_level y
      then let (run, others) := deeper_run lvl rest in (y :: run, others)
      else ([], flat)
  end.

(** The tree of a flat list, by its meaning: the children of a heading are
    the outline of the run of strictly deeper headings that follow it; the
    first heading that is not deeper starts the next sibling. *)
Fixpoint outline_go (fuel : nat) (flat : list FlatHeading) : list HeadingNode :=
  match fuel with
  | O => []
  | S fuel' =>
      match flat with
      | [] => []
      | x :: rest =>
          let (run, others) := deeper_run (flat_level x) rest in
          mkHeadingNode (flat_id x) (flat_text x) (flat_level x)
                        (outline_go fuel' run)
          :: outline_go fuel' others
      end
  end.

Definition outline (flat : list FlatHeading) : list HeadingNode :=
  outline_go (length flat) flat.

(** Among siblings, at every depth, a node is not deeper than the one
    before it. *)
Inductive siblings_ordered : list HeadingNode -> Prop :=
| siblings_nil : siblings_ordered []
| siblings_cons t ts :
    siblings_ordered (children t) ->
    (forall t', head ts = Some t' -> level t' <= level t) ->
    siblings_ordered ts ->
    siblings_ordered (t :: ts).

(** The same in the heap, for one array of addresses. *)
Definition sib_ok (h : list Obj) (cs : list nat) : Prop :=
  forall i c1 c2, cs !! i = Some c1 -> cs !! S i = Some c2 ->
    exists o1 o2,
      h !! c1 = Some o1 /\ h !! c2 = Some o2 /\ o_level o2 <= o_level o1.

(** Each stack entry is the last element of the array below it; [open] is
    the stack from its bottom to its top, [cs] the root array. *)
Fixpoint last_child_chain (h : list Obj) (cs : list nat)
    (open : list (nat * Z)) : Prop :=
  match open with
  | [] => True
  | (a, _) :: open' =>
      (exists fin, cs = fin ++ [a]) /\
      exists o, h !! a = Some o /\ last_child_chain h (o_children o) open'
  end.

(** The part of the loop invariant that orders siblings; the node on top
    of the stack has no children yet. *)
Record build_inv_sib (st : BuildState) : Prop :=
  mkInvSib {
    sib_root : sib_ok (heap st) (root st);
    sib_children :
      forall a o, heap st !! a = Some o -> sib_ok (heap st) (o_children o);
    sib_top :
      match stack st with
      | [] => root st = []
      | (a, _) :: _ => exists o, heap st !! a = Some o /\ o_children o = []
      end
  }.

(* ===================================================================== *)
(** * More of the DocumentOutline component *)
(* ===================================================================== *)

(** The focused index is the initial -1 or an index of the flattened
    list. *)
Definition focus_valid {engine : Engine} (st : State) : Prop :=
  -1 <= focusedIndex st < Z.of_nat (length (flatList st)).

(** What [FlatOutlineItem] renders on its button: [tabIndex],
    [aria-current], the left padding in pixels, and the text (also the
    [title]). *)
Record ItemProps : Type :=
  mkItem { tabIndex : Z; aria_current : bool; paddingLeft : Z; label : jsstring }.

(** [function FlatOutlineItem({ node, activeId, isFocused, ... })] *)
Definition FlatOutlineItem (node : HeadingNode) (active : option string)
    (isFocused : bool) : ItemProps :=
  mkItem (if isFocused then 0 else -1)
         (bool_decide (active = Some (id node)))
         ((level node - 1) * 12 + 8)
         (text node).

(** [flatList.map((node, i) => <FlatOutlineItem ... isFocused={focusedIndex === i} />)] *)
Definition tree_items {engine : Engine} (st : State) : list ItemProps :=
  imap (fun i node =>
          FlatOutlineItem node (activeId st) (focusedIndex st =? Z.of_nat i))
       (flatList st).

(** ** Scroll tracking *)

Definition SCROLL_OFFSET : Z := 80.

(** A heading element of the page as the scroll handlers read it: [el.id]
    and [el.offsetTop], in pixels. *)
Record HeadingBox : Type := mkBox { box_id : string; offsetTop : Z }.

(** [scrollTop + SCROLL_OFFSET - elTop], with
    [elTop = rootEl ? el.offsetTop - rootEl.offsetTop : el.offsetTop];
    [rootOffsetTop] is [None] when the page itself scrolls. *)
Definition dist (scrollTop : Z) (rootOffsetTop : option Z) (el : HeadingBox) : Z :=
  scrollTop + SCROLL_OFFSET
  - match rootOffsetTop with
    | Some r => offsetTop el - r
    | None => offsetTop el
    end.

(** One iteration of [for (const el of elements)], on the variables
    [best] and [bestDist]; [bestDist = None] is [Infinity]. *)
Definition nearest_step (scrollTop : Z) (rootOffsetTop : option Z)
    (acc : option string * option Z) (el : HeadingBox)
    : option string * option Z :=
  let d := dist scrollTop rootOffsetTop el in
  if (0 <=? d) && match snd acc with Some bestDist => d <? bestDist | None => true end
  then (Some (box_id el), Some d)
  else acc.

(** The loop of the three scroll handlers. *)
Definition nearest_above (scrollTop : Z) (rootOffsetTop : option Z)
    (elements : list HeadingBox) : option string * option Z :=
  fold_left (nearest_step scrollTop rootOffsetTop) elements (None, None).

(** The handler: the loop, then [if (best) setActiveId(best)]. *)
Definition track_scroll (scrollTop : Z) (rootOffsetTop : option Z)
    (elements : list HeadingBox) (st : State) : State :=
  match fst (nearest_above scrollTop rootOffsetTop elements) with
  | Some best => if truthy best then setActiveId (Some best) st else st
  | None => st
  end.

(** What the loop of the scroll handlers has found after the elements
    [seen]: nothing if all of them are below the line, else the first of
    the elements at or above the line that are nearest to it. *)
Definition nearest_ok (scrollTop : Z) (rootOffsetTop : option Z)
    (seen : list HeadingBox) (acc : option string * option Z) : Prop :=
  match acc with
  | (None, None) =>
      Forall (fun el => dist scrollTop rootOffsetTop el < 0) seen
  | (Some best, Some bestDist) =>
      exists before el after,
        seen = before ++ el :: after /\
        best = box_id el /\ bestDist = dist scrollTop rootOffsetTop el /\
        0 <= bestDist /\
        Forall (fun e => 0 <= dist scrollTop rootOffsetTop e ->
                         bestDist < dist scrollTop rootOffsetTop e) before /\
        Forall (fun e => 0 <= dist scrollTop rootOffsetTop e ->
                         bestDist <= dist scrollTop rootOffsetTop e) after
  | _ => False
  end.

(* ===================================================================== *)
(** * The workflow-run job page *)
(* ===================================================================== *)

Module RunPage.

(** [params]: the segments of the route. *)
Record Params : Type :=
  mkParams { owner : string; repo : string; runId : string; jobId : string }.

(** The fields of a workflow run that the page reads. *)
Record WorkflowRun : Type :=
  mkRun { name : option string; display_title : string; run_number : Z }.

(** U+00B7, the dot of the titles. *)
Definition middle_dot : string := String (ascii_of_nat 183) EmptyString.

(** What the page function does: it throws [notFound()], or returns a
    [RunDetail] element with these props. *)
Inductive PageResult (Jobs : Type) : Type :=
| NotFound
| RunDetail (owner repo : string) (run : WorkflowRun) (jobs : Jobs)
            (initialJobId : Z).
Arguments NotFound {Jobs}.
Arguments RunDetail {Jobs}.

Section page.
Context {Jobs : Type}.

(** [parseInt(s, 10)], with [None] for [NaN], and the two calls of the
    GitHub client; [getWorkflowRun] gives [None] for a missing run. *)
Variable parseInt10 : string -> option Z.
Variable getWorkflowRun : string -> string -> Z -> option WorkflowRun.
Variable getWorkflowRunJobs : string -> string -> Z -> Jobs.

(** [`${run.name || run.display_title} #${run.run_number} · ${owner}/${repo}`] *)
Definition run_title (run : WorkflowRun) (owner repo : string) : string :=
  (match name run with
   | Some n => if truthy n then n else display_title run
   | None => display_title run
   end)
  +:+ " #" +:+ pretty (run_number run) +:+ " " +:+ middle_dot +:+ " "
  +:+ owner +:+ "/" +:+ repo.

(** [generateMetadata({ params })]: the title. *)
Definition generateMetadata (params : Params) : string :=
  match parseInt10 (runId params) with
  | None =>
      "Run " +:+ middle_dot +:+ " " +:+ owner params +:+ "/" +:+ repo params
  | Some runIdNum =>
      match getWorkflowRun (owner params) (repo params) runIdNum with
      | None =>
          "Run #" +:+ runId params +:+ " " +:+ middle_dot +:+ " "
          +:+ owner params +:+ "/" +:+ repo params
      | Some run => run_title run (owner params) (repo params)
      end
  end.

(** [WorkflowRunJobPage({ params })] *)
Definition WorkflowRunJobPage (params : Params) : PageResult Jobs :=
  match parseInt10 (runId params), parseInt10 (jobId params) with
  | Some runIdNum, Some jobIdNum =>
      let run := getWorkflowRun (owner params) (repo params) runIdNum in
      let jobs := getWorkflowRunJobs (owner params) (repo params) runIdNum in
      match run with
      | None => NotFound
      | Some run =>
          RunDetail (owner params) (repo params) run jobs jobIdNum
      end
  | _, _ => NotFound
  end.
End page.
End RunPage.
Example buildTree_ex :
  buildTree [mkFlat "a" (js "A") 1; mkFlat "b" (js "B") 2; mkFlat "c" (js "C") 3;
             mkFlat "d" (js "D") 2; mkFlat "e" (js "E") 1]
  = Some [mkHeadingNode "a" (js "A") 1
            [mkHeadingNode "b" (js "B") 2 [mkHeadingNode "c" (js "C") 3 []];
             mkHeadingNode "d" (js "D") 2 []];
          mkHeadingNode "e" (js "E") 1 []].
Proof. reflexivity. Qed.

(* ===================================================================== *)
(** * Proofs: flattenTree *)
(* ===================================================================== *)

Lemma walk_node_preorder n : forall r, walk_node n r = r ++ preorder_node n.
Proof.
  induction n as [i t l cs IH] using HeadingNode_forall. intros r.
  cbn [walk_node preorder_node children].
  set (w := fix walk (l0 result : list HeadingNode) : list HeadingNode :=
              match l0 with
              | [] => result
              | c :: l' => walk l' (walk_node c result)
              end).
  assert (Hw : forall acc, w cs acc = acc ++ flat_map preorder_node cs).
  { clear r. induction IH as [|c cs' Hc _ IHcs]; intros acc; cbn.
    - by rewrite app_nil_r.
    - rewrite IHcs, Hc. by rewrite <- app_assoc. }
  rewrite Hw. by rewrite <- app_assoc.
Qed.

Lemma walk_preorder l : forall r, walk l r = r ++ preorder l.
Proof.
  unfold walk, preorder. induction l as [|n l IH]; intros r; cbn.
  - by rewrite app_nil_r.
  - rewrite IH, walk_node_preorder. by rewrite <- app_assoc.
Qed.

Lemma flattenTree_preorder nodes : flattenTree nodes = preorder nodes.
Proof. unfold flattenTree. by rewrite walk_preorder. Qed.

Lemma flattenTree_cons n ts :
  flattenTree (n :: ts) = n :: flattenTree (children n) ++ flattenTree ts.
Proof. rewrite !flattenTree_preorder. by destruct n. Qed.

Lemma flattenTree_nil : flattenTree [] = [].
Proof. reflexivity. Qed.

(** [flattenTree] lists exactly the nodes that occur in the forest. *)
Lemma occurs_flattenTree n ts : occurs n ts <-> In n (flattenTree ts).
Proof.
  split.
  - induction 1 as [ts|t ts _ IH|t ts _ IH]; rewrite flattenTree_cons.
    + by left.
    + right. apply in_or_app. by left.
    + right. apply in_or_app. by right.
  - revert n. induction ts as [|t ts IHts]; [intros n []|].
    revert ts IHts.
    induction t as [i tx l cs IH] using HeadingNode_forall.
    intros ts IHts n. rewrite flattenTree_cons. cbn [children].
    intros [<-|Hin]; [constructor|].
    apply in_app_or in Hin as [Hin|Hin]; [|by apply occurs_later, IHts].
    apply occurs_below. cbn [children].
    clear IHts. revert n Hin.
    induction IH as [|c cs' Hc _ IHcs]; intros n Hin; [destruct Hin|].
    by apply (Hc cs').
Qed.

(* ===================================================================== *)
(** * Proofs: buildTree *)
(* ===================================================================== *)

(** ** The popping loop *)

Lemma pop_while_suffix lvl st : exists popped, st = popped ++ pop_while lvl st.
Proof.
  induction st as [|[a l] st [p IH]]; cbn; [by exists []|].
  destruct (l >=? lvl); [|by exists []].
  exists ((a, l) :: p). cbn. by f_equal.
Qed.

Lemma pop_while_top lvl st a l rest :
  pop_while lvl st = (a, l) :: rest -> l < lvl.
Proof.
  induction st as [|[a' l'] st IH]; cbn; [done|].
  destruct (l' >=? lvl) eqn:E; [done|].
  intros [= -> -> ->]. rewrite Z.geb_leb in E. by apply Z.leb_gt in E.
Qed.

(** ** Forests laid out in the heap *)

Lemma repr_le h s ts cs e : repr_forest h s ts cs e -> (s <= e)%nat.
Proof. induction 1; lia. Qed.

Lemma repr_stable h h' s ts cs e :
  repr_forest h s ts cs e ->
  (forall a, (s <= a < e)%nat -> h' !! a = h !! a) ->
  repr_forest h' s ts cs e.
Proof.
  induction 1 as [s|s o ks m ts cs e Ho Hk IHk Ht IHt]; intros Hsame.
  - constructor.
  - pose proof (repr_le _ _ _ _ _ Hk). pose proof (repr_le _ _ _ _ _ Ht).
    econstructor.
    + rewrite Hsame; [done|lia].
    + apply IHk. intros a Ha. apply Hsame. lia.
    + apply IHt. intros a Ha. apply Hsame. lia.
Qed.

Lemma repr_app h s ts cs m ts' cs' e :
  repr_forest h s ts cs m -> repr_forest h m ts' cs' e ->
  repr_forest h s (ts ++ ts') (cs ++ cs') e.
Proof. induction 1; intros; cbn; [done|econstructor; eauto]. Qed.

Lemma repr_reify_each h s ts cs e :
  repr_forest h s ts cs e ->
  forall fuel, (length h <= fuel + s)%nat ->
    Forall2 (fun a t => reify fuel h a = Some t) cs ts.
Proof.
  induction 1 as [s|s o ks m ts cs e Ho Hk IHk Ht IHt]; intros fuel Hf.
  - constructor.
  - pose proof (repr_le _ _ _ _ _ Hk).
    pose proof (lookup_lt_Some _ _ _ Ho).
    constructor; [|apply IHt; lia].
    destruct fuel as [|fuel]; [lia|].
    cbn [reify]. rewrite Ho.
    rewrite (mapM_Some_2 _ _ _ (IHk fuel ltac:(lia))). done.
Qed.

Lemma repr_reify h ts cs :
  repr_forest h 0 ts cs (length h) ->
  mapM (reify (length h) h) cs = Some ts.
Proof.
  intros Hr. apply mapM_Some_2. eapply repr_reify_each; [done|lia].
Qed.

Lemma repr_items h s ts cs e :
  repr_forest h s ts cs e ->
  item_of <$> take e h = (item_of <$> take s h) ++ (entry <$> flattenTree ts).
Proof.
  induction 1 as [s|s o ks m ts cs e Ho Hk IHk Ht IHt].
  - by rewrite flattenTree_nil, app_nil_r.
  - rewrite IHt, IHk, (take_S_r _ _ _ Ho), flattenTree_cons.
    cbn [children node_of]. rewrite fmap_cons, !fmap_app, <- !app_assoc. done.
Qed.

Lemma repr_roots h s ts cs e :
  repr_forest h s ts cs e ->
  Forall2 (fun t a => exists o, h !! a = Some o /\ level t = o_level o) ts cs.
Proof.
  induction 1 as [s|s o ks m ts cs e Ho Hk IHk Ht IHt]; constructor; eauto.
Qed.

Lemma Forall2_Forall_In {A B} (R : A -> B -> Prop) (P : A -> Prop) ts cs :
  Forall2 R ts cs -> (forall t c, In c cs -> R t c -> P t) -> Forall P ts.
Proof.
  induction 1 as [|t c ts cs Htc _ IH]; intros HP; constructor.
  - apply (HP t c); [by left|done].
  - apply IH. intros t' c' Hc'. apply HP. by right.
Qed.

Lemma repr_deeper h s ts cs e :
  levels_ok h -> repr_forest h s ts cs e -> Forall strictly_deeper ts.
Proof.
  intros Hok.
  induction 1 as [s|s o ks m ts cs e Ho Hk IHk Ht IHt]; constructor; [|done].
  constructor; cbn [children node_of level]; [|done].
  apply repr_roots in Hk.
  eapply Forall2_Forall_In; [exact Hk|].
  intros t c Hin (oc & Hc & Hlvl).
  destruct (Hok s o c Ho Hin) as (oc' & Hc' & Hlt).
  assert (oc' = oc) by congruence. subst oc'. cbn. lia.
Qed.

(** ** The invariant's ingredients *)

Lemma spine_lower h open : forall s cs a l,
  spine h s cs (open ++ [(a, l)]) -> (s <= a)%nat.
Proof.
  induction open as [|[b lb] open IH]; intros s cs a l; cbn.
  - intros (ts & fin & o & _ & Hr & _). by eapply repr_le.
  - intros (ts & fin & o & _ & Hr & _ & Hs).
    apply IH in Hs. apply repr_le in Hr. lia.
Qed.

Lemma spine_close h open : forall s cs,
  spine h s cs open -> exists ts, repr_forest h s ts cs (length h).
Proof.
  induction open as [|[a l] open IH]; intros s cs; cbn; [done|].
  intros (ts & fin & o & -> & Hr & Ho & Hs).
  destruct (IH _ _ Hs) as [ks Hks].
  exists (ts ++ [node_of o ks]).
  eapply repr_app; [done|]. econstructor; [done..|constructor].
Qed.

Lemma spine_pop h closed open : forall s cs,
  spine h s cs (open ++ closed) -> spine h s cs open.
Proof.
  induction open as [|[a l] open IH]; intros s cs; cbn.
  - apply spine_close.
  - intros (ts & fin & o & ? & ? & ? & Hs). exists ts, fin, o. eauto.
Qed.

Section push.
Variables (h : list Obj) (new : Obj).
Hypothesis new_leaf : o_children new = [].
Let n := length h.

Lemma spine_push_root cs lvl :
  spine h 0 cs [] -> spine (h ++ [new]) 0 (cs ++ [n]) [(n, lvl)].
Proof.
  intros [ts Hr]. cbn. exists ts, cs, new. split_and!; [done|..].
  - eapply repr_stable; [done|]. intros a Ha. apply lookup_app_l. lia.
  - apply list_lookup_middle. done.
  - exists []. rewrite new_leaf, length_app. cbn.
    replace (length h + 1)%nat with (S n) by (unfold n; lia). constructor.
Qed.

Lemma spine_push_child p lp lvl open : forall s cs,
  spine h s cs (open ++ [(p, lp)]) ->
  spine (alter (push_child n) p (h ++ [new])) s cs
        (open ++ [(p, lp); (n, lvl)]).
Proof.
  induction open as [|[a la] open IH]; intros s cs; cbn.
  - intros (ts & fin & o & -> & Hr & Ho & ks & Hks).
    pose proof (lookup_lt_Some _ _ _ Ho) as Hp. fold n in Hp.
    exists ts, fin, (push_child n o). split_and!; [done|..].
    + eapply repr_stable; [done|]. intros a Ha.
      rewrite list_lookup_alter_ne by lia. apply lookup_app_l. lia.
    + rewrite list_lookup_alter_eq, lookup_app_l by done. by rewrite Ho.
    + exists ks, (o_children o), new. split_and!; [done|..].
      * eapply repr_stable; [done|]. intros a Ha.
        rewrite list_lookup_alter_ne by lia. apply lookup_app_l. lia.
      * rewrite list_lookup_alter_ne by lia. by apply list_lookup_middle.
      * exists []. rewrite new_leaf, length_alter, length_app. cbn.
        replace (length h + 1)%nat with (S n) by (unfold n; lia).
        constructor.
  - intros (ts & fin & o & -> & Hr & Ho & Hs).
    pose proof (spine_lower _ _ _ _ _ _ Hs) as Hap.
    pose proof (repr_le _ _ _ _ _ Hr) as Hsa.
    pose proof (lookup_lt_Some _ _ _ Ho) as Ha.
    exists ts, fin, o. split_and!; [done|..|by apply IH].
    + eapply repr_stable; [done|]. intros b Hb.
      rewrite list_lookup_alter_ne by lia. apply lookup_app_l. lia.
    + rewrite list_lookup_alter_ne by lia. by rewrite lookup_app_l.
Qed.
End push.

(** ** Levels *)

Lemma keeps_levels_alloc h new : keeps_levels h (h ++ [new]).
Proof. intros c oc Hc. exists oc. split; [by apply lookup_app_l_Some|done]. Qed.

Lemma keeps_levels_push (h : list Obj) (n p : nat) : keeps_levels h (alter (push_child n) p h).
Proof.
  intros c oc Hc. destruct (decide (p = c)) as [->|Hne].
  - rewrite list_lookup_alter_eq, Hc. by eexists.
  - rewrite list_lookup_alter_ne by done. by eexists.
Qed.

Lemma keeps_levels_trans h1 h2 h3 :
  keeps_levels h1 h2 -> keeps_levels h2 h3 -> keeps_levels h1 h3.
Proof.
  intros H12 H23 c oc Hc.
  destruct (H12 _ _ Hc) as (oc2 & Hc2 & E2).
  destruct (H23 _ _ Hc2) as (oc3 & Hc3 & E3).
  exists oc3. split; [done|congruence].
Qed.

Lemma stack_ok_keeps h h' st :
  keeps_levels h h' -> stack_ok h st -> stack_ok h' st.
Proof.
  intros Hk Hst. eapply Forall_impl; [exact Hst|].
  intros [a l] (o & Ho & Hl). cbn in *.
  destruct (Hk _ _ Ho) as (o' & Ho' & E). exists o'. split; [done|congruence].
Qed.

Lemma stack_ok_pop h lvl st : stack_ok h st -> stack_ok h (pop_while lvl st).
Proof.
  destruct (pop_while_suffix lvl st) as [p Hp]. intros H.
  rewrite Hp in H. by apply Forall_app in H as [_ ?].
Qed.

Lemma levels_ok_alloc h new :
  o_children new = [] -> levels_ok h -> levels_ok (h ++ [new]).
Proof.
  intros Hleaf Hok a o c Ha Hc.
  apply lookup_app_Some in Ha as [Ha|[_ Ha]].
  - destruct (Hok _ _ _ Ha Hc) as (oc & Hoc & Hlt).
    exists oc. split; [by apply lookup_app_l_Some|done].
  - apply list_lookup_singleton_Some in Ha as [_ <-].
    rewrite Hleaf in Hc. destruct Hc.
Qed.

Lemma levels_ok_push h n p op on :
  h !! p = Some op -> h !! n = Some on -> o_level op < o_level on ->
  levels_ok h -> levels_ok (alter (push_child n) p h).
Proof.
  intros Hp Hn Hlt Hok a o c Ha Hc.
  pose proof (keeps_levels_push h n p) as Hk.
  rewrite list_lookup_alter in Ha. case_decide as Hpa.
  - subst a. rewrite Hp in Ha. injection Ha as <-. cbn in Hc |- *.
    apply in_app_or in Hc as [Hc|[<-|[]]].
    + destruct (Hok _ _ _ Hp Hc) as (oc & Hoc & Hlt').
      destruct (Hk _ _ Hoc) as (oc' & Hoc' & E). exists oc'.
      split; [done|lia].
    + destruct (Hk _ _ Hn) as (on' & Hon' & E). exists on'.
      split; [done|lia].
  - destruct (Hok _ _ _ Ha Hc) as (oc & Hoc & Hlt').
    destruct (Hk _ _ Hoc) as (oc' & Hoc' & E). exists oc'.
    split; [done|lia].
Qed.

Lemma items_push (h : list Obj) (n p : nat) :
  item_of <$> alter (push_child n) p h = item_of <$> h.
Proof.
  rewrite (list_fmap_alter item_of (push_child n) (fun x => x)).
  - by apply list_alter_id.
  - by apply Forall_true.
Qed.

(** ** The loop *)

Lemma build_inv_init : build_inv [] (mkBuild [] [] []).
Proof.
  constructor; cbn.
  - exists []. constructor.
  - intros a o c Ha. by rewrite lookup_nil in Ha.
  - constructor.
  - done.
Qed.

Lemma build_inv_step seen st item :
  build_inv seen st -> build_inv (seen ++ [item]) (buildTree_step st item).
Proof.
  intros [Hsp Hlv Hst Hit]. destruct item as [iid itx ilv].
  unfold buildTree_step. cbn [flat_id flat_text flat_level].
  set (new := mkObj iid itx ilv []).
  assert (Hnew : (heap st ++ [new]) !! length (heap st) = Some new)
    by by apply list_lookup_middle.
  pose proof (stack_ok_pop _ ilv _ Hst) as Hst'.
  assert (Hsp' : spine (heap st) 0 (root st) (rev (pop_while ilv (stack st)))).
  { destruct (pop_while_suffix ilv (stack st)) as [p Hp].
    rewrite Hp, rev_app_distr in Hsp. by apply spine_pop in Hsp. }
  destruct (pop_while ilv (stack st)) as [|[top l] rest] eqn:E.
  - constructor; cbn [heap root stack].
    + cbn [rev app] in *. by apply spine_push_root.
    + by apply levels_ok_alloc.
    + constructor; [|constructor]. by exists new.
    + by rewrite fmap_app, Hit.
  - pose proof (pop_while_top _ _ _ _ _ E) as Hlt.
    pose proof (Forall_inv Hst') as (otop & Htop & Hl). cbn in Htop, Hl.
    assert (Hkeep : keeps_levels (heap st)
              (alter (push_child (length (heap st))) top (heap st ++ [new]))).
    { eapply keeps_levels_trans;
        [apply keeps_levels_alloc|apply keeps_levels_push]. }
    constructor; cbn [heap root stack].
    + cbn [rev] in *. rewrite <- app_assoc. by apply spine_push_child.
    + eapply levels_ok_push;
        [by apply lookup_app_l_Some|done|cbn; lia|by apply levels_ok_alloc].
    + constructor; [|by eapply stack_ok_keeps].
      destruct (keeps_levels_push (heap st ++ [new]) (length (heap st)) top
                  _ _ Hnew) as (o' & Ho' & E').
      by exists o'.
    + by rewrite items_push, fmap_app, Hit.
Qed.

Lemma build_inv_fold flat : forall seen st,
  build_inv seen st -> build_inv (seen ++ flat) (fold_left buildTree_step flat st).
Proof.
  induction flat as [|item flat IH]; intros seen st Hinv; cbn.
  - by rewrite app_nil_r.
  - replace (seen ++ item :: flat) with ((seen ++ [item]) ++ flat)
      by by rewrite <- app_assoc.
    by apply IH, build_inv_step.
Qed.

Lemma build_inv_loop flat : build_inv flat (buildTree_loop flat).
Proof. apply (build_inv_fold flat [] _ build_inv_init). Qed.

(** What [buildTree] returns: it always returns, and the forest it returns
    is laid out in the final heap in allocation order. *)
Lemma buildTree_repr flat :
  exists ts,
    buildTree flat = Some ts /\
    repr_forest (heap (buildTree_loop flat)) 0 ts (root (buildTree_loop flat))
                (length (heap (buildTree_loop flat))) /\
    build_inv flat (buildTree_loop flat).
Proof.
  pose proof (build_inv_loop flat) as Hinv.
  destruct (spine_close _ _ _ _ (inv_spine _ _ Hinv)) as [ts Hts].
  exists ts. split_and!; [|done..]. by apply repr_reify.
Qed.

Lemma buildTree_total flat : is_Some (buildTree flat).
Proof. destruct (buildTree_repr flat) as (ts & -> & _). by eexists. Qed.

Lemma strictly_deeper_occurs ts :
  Forall strictly_deeper ts ->
  forall n, occurs n ts -> forall c, In c (children n) -> level n < level c.
Proof.
  intros Hts n Hn. induction Hn as [ts|t ts _ IH|t ts _ IH].
  - apply Forall_inv in Hts. destruct Hts as [n Hlv _].
    intros c Hc. by apply (proj1 (List.Forall_forall _ _) Hlv).
  - apply Forall_inv in Hts. destruct Hts as [t _ Hsub]. by apply IH.
  - apply Forall_inv_tail in Hts. by apply IH.
Qed.

(** C3.  In the tree that [buildTree] returns, at every depth, every child
    of a node has a nesting level strictly greater than the node's own. *)
Theorem buildTree_children_deeper (flat : list FlatHeading) :
  exists ts,
    buildTree flat = Some ts /\
    Forall strictly_deeper ts /\
    (forall n, occurs n ts ->
       forall c, In c (children n) -> level n < level c).
Proof.
  destruct (buildTree_repr flat) as (ts & Hb & Hr & Hinv).
  exists ts. split; [done|].
  assert (Hd : Forall strictly_deeper ts)
    by (eapply repr_deeper; [apply (inv_levels _ _ Hinv)|exact Hr]).
  split; [done|]. by apply strictly_deeper_occurs.
Qed.

Lemma buildTree_entries flat :
  exists ts, buildTree flat = Some ts /\ entry <$> flattenTree ts = flat.
Proof.
  destruct (buildTree_repr flat) as (ts & Hb & Hr & Hinv).
  exists ts. split; [done|].
  apply repr_items in Hr. rewrite take_ge, (inv_items _ _ Hinv) in Hr by done.
  cbn in Hr. done.
Qed.

(** C4.  Flattening the tree built from a flat list gives back the list's
    entries (id, text, level), in their original order. *)
Theorem flattenTree_buildTree (flat : list FlatHeading) :
  exists ts,
    buildTree flat = Some ts /\ entry <$> flattenTree ts = flat.
Proof. apply buildTree_entries. Qed.
(* ===================================================================== *)
(** * Proofs: filterTree *)
(* ===================================================================== *)

Section filter_examples.
#[local] Existing Instance excerpt_engine.

Example filterTree_ex :
  filterTree
    [mkHeadingNode "a" (js "Intro") 1 [mkHeadingNode "b" (js "Setup GUIDE") 2 []];
     mkHeadingNode "c" (js "Usage") 1 [];
     mkHeadingNode "d" (js "Style guide") 1 [mkHeadingNode "e" (js "Fonts") 2 []]]
    (js "Guide")
  = [mkHeadingNode "a" (js "Intro") 1 [mkHeadingNode "b" (js "Setup GUIDE") 2 []];
     mkHeadingNode "d" (js "Style guide") 1 []].
Proof. reflexivity. Qed.

(** C2, as stated, fails.  The heading "ΑΣ" (U+0391 U+03A3) contains the
    query "Σ" (U+03A3) as it is written, and [filterTree] drops it:
    [toLowerCase] gives the sigma of the text its final form, "ας"
    (U+03B1 U+03C2), and the sigma of the query the other one, "σ"
    (U+03C3). *)
Lemma filterTree_final_sigma :
  let heading := mkHeadingNode "h" [913; 931] 1 [] in
  let query := [931] in
  toLowerCase (text heading) = [945; 962] /\
  toLowerCase query = [963] /\
  text heading = [913] ++ query ++ [] /\
  ci_contains (text heading) query /\
  filterTree [heading] query = [].
Proof.
  cbv zeta. split_and!; [reflexivity..| |reflexivity].
  by exists [913], [931], [].
Qed.

End filter_examples.

(** ** Substrings *)

Lemma prefix_spec q s :
  starts_with q s = true <-> exists post, s = q ++ post.
Proof.
  revert s. induction q as [|c q IH]; intros s; cbn.
  - split; [by exists s|done].
  - destruct s as [|d s]; [split; [done|by intros [? ?]]|].
    rewrite andb_true_iff, Z.eqb_eq, IH. split.
    + intros [-> [post ->]]. by exists post.
    + intros [post [= -> ->]]. split; [done|by exists post].
Qed.

Lemma includes_spec s q :
  includes s q = true <-> exists pre post, s = pre ++ q ++ post.
Proof.
  induction s as [|c s IH].
  - cbn [includes]. rewrite orb_false_r, prefix_spec. split.
    + intros [post E]. by exists [], post.
    + intros (pre & post & E). exists post.
      destruct pre; [done|discriminate].
  - cbn [includes]. rewrite orb_true_iff, prefix_spec, IH. split.
    + intros [[post E]|(pre & post & E)].
      * by exists [], post.
      * exists (c :: pre), post. cbn. by rewrite E.
    + intros ([|c' pre] & post & E); cbn in E.
      * left. by exists post.
      * right. exists pre, post. congruence.
Qed.

Lemma includes_empty s : includes s [] = true.
Proof. by destruct s. Qed.

Lemma occurs_In n ts :
  occurs n ts <-> exists t, In t ts /\ (n = t \/ occurs n (children t)).
Proof.
  split.
  - induction 1 as [ts|t ts H _|t ts _ (t' & Hin & H)].
    + exists n. split; [by left|by left].
    + exists t. split; [by left|by right].
    + exists t'. split; [by right|done].
  - intros (t & Hin & H). induction ts as [|t' ts IH]; [destruct Hin|].
    destruct Hin as [->|Hin].
    + destruct H as [->|H]; [apply occurs_here|by apply occurs_below].
    + by apply occurs_later, IH.
Qed.

Section filter_proofs.
Context {engine : Engine}.

(** The test of [matches] on a text. *)
Lemma includes_lower text query :
  includes (toLowerCase text) (toLowerCase query) = true
  <-> lower_contains text query.
Proof. apply includes_spec. Qed.

(** ** The decision [matches] *)

Lemma matches_unfold q n :
  matches q n = includes (toLowerCase (text n)) q || existsb (matches q) (children n).
Proof. destruct n as [i t l cs]. cbn. by destruct (includes _ _). Qed.

Lemma matches_kept query n :
  matches (toLowerCase query) n = true <-> kept query n.
Proof.
  induction n as [i t l cs IH] using HeadingNode_forall.
  rewrite matches_unfold, orb_true_iff, includes_lower. unfold kept.
  cbn [text children].
  apply or_iff_compat_l.
  rewrite existsb_exists. split.
  - intros (c & Hin & Hc).
    apply (proj1 (List.Forall_forall _ _) IH c Hin) in Hc.
    destruct Hc as [Hc|(d & Hd & Hq)].
    + exists c. split; [|done]. apply occurs_In. exists c. by split; [|left].
    + exists d. split; [|done]. apply occurs_In. exists c. by split; [|right].
  - intros (d & Hd & Hq). apply occurs_In in Hd as (c & Hin & Hd).
    exists c. split; [done|].
    apply (proj1 (List.Forall_forall _ _) IH c Hin).
    destruct Hd as [->|Hd]; [by left|right; by exists d].
Qed.

(** ** The loop [prune] *)

Lemma prune_loop_filter keep rebuild l :
  prune_loop keep rebuild l = map rebuild (List.filter keep l).
Proof.
  induction l as [|n l IH]; cbn; [done|].
  destruct (keep n); cbn; by rewrite IH.
Qed.

Lemma pruned_copy_unfold q n :
  pruned_copy q n
  = mkHeadingNode (id n) (text n) (level n) (prune q (children n)).
Proof. by destruct n. Qed.

Lemma prune_filter q l :
  prune q l = map (pruned_copy q) (List.filter (matches q) l).
Proof. apply prune_loop_filter. Qed.

(** C2, amended.  [filterTree] keeps a node exactly when its text in lower
    case, or the text in lower case of one of its descendants, contains
    the query in lower case as a substring; the kept nodes stay in their
    order, and the children of a kept node are filtered by the same
    rule. *)
Theorem filterTree_keeps_matching (nodes : list HeadingNode) (query : jsstring) :
  (forall n, matches (toLowerCase query) n = true <-> kept query n) /\
  filterTree nodes query
  = map (fun n => mkHeadingNode (id n) (text n) (level n)
                    (filterTree (children n) query))
        (List.filter (matches (toLowerCase query)) nodes).
Proof.
  split; [apply matches_kept|].
  unfold filterTree. rewrite prune_filter. apply map_ext.
  apply pruned_copy_unfold.
Qed.

(** ** Forests in which every node passes the test *)

Lemma matches_pruned_copy q n :
  matches q n = true -> matches q (pruned_copy q n) = true.
Proof.
  induction n as [i t l cs IH] using HeadingNode_forall.
  rewrite pruned_copy_unfold, !matches_unfold. cbn [text children].
  rewrite !orb_true_iff, !existsb_exists, prune_filter.
  intros [Hself|(c & Hin & Hc)]; [by left|right].
  exists (pruned_copy q c). split.
  - apply in_map, filter_In. by split.
  - by apply (proj1 (List.Forall_forall _ _) IH c Hin).
Qed.

Lemma all_match_pruned_copy q n :
  matches q n = true -> all_match q (pruned_copy q n).
Proof.
  induction n as [i t l cs IH] using HeadingNode_forall. intros Hm.
  constructor; [by apply matches_pruned_copy|].
  rewrite pruned_copy_unfold. cbn [children]. rewrite prune_filter.
  apply List.Forall_forall. intros c' Hc'.
  apply in_map_iff in Hc' as (c & <- & Hc). apply filter_In in Hc as [Hin Hc].
  by apply (proj1 (List.Forall_forall _ _) IH c Hin).
Qed.

Lemma all_match_prune q l : Forall (all_match q) (prune q l).
Proof.
  rewrite prune_filter. apply List.Forall_forall. intros n' Hn'.
  apply in_map_iff in Hn' as (n & <- & Hn). apply filter_In in Hn as [_ Hn].
  by apply all_match_pruned_copy.
Qed.

Lemma pruned_copy_all_match q n : all_match q n -> pruned_copy q n = n.
Proof.
  induction n as [i t l cs IH] using HeadingNode_forall.
  intros Hall. inversion Hall as [n _ Hcs]; subst n. cbn [children] in Hcs.
  cbn [pruned_copy]. f_equal. clear Hall.
  induction IH as [|c cs' Hc _ IHcs]; [done|].
  apply Forall_cons in Hcs as [Hac Hcs]. cbn [prune_loop].
  rewrite (Hc Hac), (IHcs Hcs). by destruct Hac as [c -> _].
Qed.

Lemma prune_all_match q l : Forall (all_match q) l -> prune q l = l.
Proof.
  induction 1 as [|n l Hn _ IH]; [done|]. unfold prune in *. cbn.
  rewrite (pruned_copy_all_match _ _ Hn), IH. by destruct Hn as [n ->].
Qed.

Lemma all_match_empty n : all_match [] n.
Proof.
  induction n as [i t l cs IH] using HeadingNode_forall.
  constructor; [|done]. by rewrite matches_unfold, includes_empty.
Qed.

(** C9.  Filtering with the empty query returns the tree as it is, and
    filtering an already filtered tree with the same query changes
    nothing. *)
Theorem filterTree_empty_and_idempotent (nodes : list HeadingNode) :
  filterTree nodes [] = nodes /\
  forall query,
    filterTree (filterTree nodes query) query = filterTree nodes query.
Proof.
  split.
  - unfold filterTree. rewrite toLowerCase_empty. apply prune_all_match.
    apply List.Forall_forall. intros n _. apply all_match_empty.
  - intros query. unfold filterTree. apply prune_all_match, all_match_prune.
Qed.

End filter_proofs.

(* ===================================================================== *)
(** * Proofs: extractHeadings *)
(* ===================================================================== *)

Example extractHeadings_ex :
  extractHeadings
    [DOM.mkElement "DIV" (Some (js "x")) "";
     DOM.mkElement "H1" (Some (js "  Getting   started ")) "";
     DOM.mkElement "H2" (Some (js "   ")) "blank";
     DOM.mkElement "P" (Some (js "text")) "";
     DOM.mkElement "H2" (Some (js "Install")) "install";
     DOM.mkElement "H3" None "";
     DOM.mkElement "H2" (Some (js "Use it")) ""]
  = Some ([DOM.mkElement "H1" (Some (js "  Getting   started ")) "heading-0";
           DOM.mkElement "H2" (Some (js "   ")) "blank";
           DOM.mkElement "H2" (Some (js "Install")) "install";
           DOM.mkElement "H3" None "heading-3";
           DOM.mkElement "H2" (Some (js "Use it")) "heading-4"],
          [mkHeadingNode "heading-0" (js "Getting started") 1
             [mkHeadingNode "install" (js "Install") 2 [];
              mkHeadingNode "heading-4" (js "Use it") 2 []]]).
Proof. vm_compute. reflexivity. Qed.

(** ** Trimming *)

Lemma ends_ws_cons c s : s <> [] -> ends_ws (c :: s) = ends_ws s.
Proof. by destruct s. Qed.

Lemma ends_ws_snoc s c : ends_ws (s ++ [c]) = isWhiteSpace c.
Proof.
  induction s as [|x s IH]; [done|]. cbn [app].
  rewrite ends_ws_cons; [done|]. by destruct s.
Qed.

Lemma trimStart_head s c s' :
  trimStart s = c :: s' -> isWhiteSpace c = false.
Proof.
  induction s as [|x s IH]; cbn; [done|].
  destruct (isWhiteSpace x) eqn:E; [done|]. by intros [= <- _].
Qed.

Lemma trimEnd_head s c s' :
  trimEnd s = c :: s' -> exists s1, s = c :: s1.
Proof.
  destruct s as [|x s]; cbn; [done|].
  destruct (trimEnd s); [destruct (isWhiteSpace x); [done|]|];
    intros [= <- _]; by eexists.
Qed.

Lemma trimEnd_last s : ends_ws (trimEnd s) = false.
Proof.
  induction s as [|x s IH]; cbn; [done|].
  destruct (trimEnd s) as [|y r].
  - destruct (isWhiteSpace x) eqn:E; [done|]. cbn. done.
  - by rewrite ends_ws_cons.
Qed.

Lemma trim_head t c s' : trim t = c :: s' -> isWhiteSpace c = false.
Proof.
  unfold trim. intros E. apply trimEnd_head in E as [s1 E].
  by apply trimStart_head in E.
Qed.

(** ** Replacing runs of white space *)

Lemma replace_runs_in_run_head s c r :
  replace_runs true s = c :: r -> isWhiteSpace c = false.
Proof.
  induction s as [|x s IH]; cbn; [done|].
  destruct (isWhiteSpace x) eqn:E; [done|]. by intros [= <- _].
Qed.

Lemma replace_runs_empty s :
  replace_runs true s = [] -> s <> [] -> ends_ws s = true.
Proof.
  induction s as [|x s IH]; cbn [replace_runs]; [done|].
  destruct (isWhiteSpace x) eqn:E; [|done]. intros Hr _.
  destruct s as [|y s]; [done|]. rewrite ends_ws_cons by done. by apply IH.
Qed.

Lemma replace_runs_last s : forall b,
  ends_ws (replace_runs b s) = true -> ends_ws s = true.
Proof.
  induction s as [|x s IH]; intros b; cbn [replace_runs]; [done|].
  destruct (isWhiteSpace x) eqn:E; [destruct b|].
  - intros H. pose proof (IH _ H) as Hs.
    rewrite ends_ws_cons; [done|]. by destruct s.
  - intros H. destruct s as [|y s]; [done|]. rewrite ends_ws_cons by done.
    destruct (replace_runs true (y :: s)) as [|z r] eqn:Er.
    + by apply replace_runs_empty.
    + rewrite ends_ws_cons in H by done. rewrite <- Er in H.
      by apply (IH true).
  - destruct (replace_runs false s) as [|z r] eqn:Er.
    + cbn. congruence.
    + rewrite ends_ws_cons by done. intros H. rewrite <- Er in H.
      apply IH in H. rewrite ends_ws_cons; [done|]. by destruct s.
Qed.

Lemma replace_runs_inside s : forall b pre c post,
  replace_runs b s = pre ++ c :: post -> isWhiteSpace c = true ->
  c = 32 /\
  forall d post', post = d :: post' -> isWhiteSpace d = false.
Proof.
  induction s as [|x s IH]; intros b pre c post; cbn [replace_runs].
  - by destruct pre.
  - destruct (isWhiteSpace x) eqn:E; [destruct b|].
    + apply IH.
    + destruct pre as [|p pre]; cbn [app].
      * intros [= <- <-] _. split; [done|].
        intros d post'. apply replace_runs_in_run_head.
      * intros [= _ H]. by apply (IH true pre).
    + destruct pre as [|p pre]; cbn [app].
      * intros [= <- _]. congruence.
      * intros [= _ H]. by apply (IH false pre).
Qed.

Lemma normalized_trim_replace t : normalized (replace_whitespace (trim t)).
Proof.
  unfold replace_whitespace. split_and!.
  - intros c s'. destruct (trim t) as [|x u] eqn:Et; cbn [replace_runs]; [done|].
    pose proof (trim_head _ _ _ Et) as Hx. rewrite Hx. by intros [= <- _].
  - intros s' c E. destruct (isWhiteSpace c) eqn:Ec; [|done].
    assert (H : ends_ws (replace_runs false (trim t)) = true)
      by by rewrite E, ends_ws_snoc.
    apply replace_runs_last in H. unfold trim in H.
    by rewrite trimEnd_last in H.
  - intros pre c post. apply replace_runs_inside.
Qed.

Lemma normalized_heading_text el : normalized (heading_text el).
Proof.
  unfold heading_text. destruct (DOM.textContent el).
  - apply normalized_trim_replace.
  - split_and!; [done|by intros [|??] ?|by intros [|??] ? ?].
Qed.

(** ** The loop over the heading elements *)

Lemma heading_tag_level tag :
  tag ∈ heading_tags ->
  exists lvl, parseInt (String.get 1 tag) = Some lvl /\ 1 <= lvl <= 6.
Proof.
  unfold heading_tags. rewrite !elem_of_cons, elem_of_nil.
  intros [->|[->|[->|[->|[->|[->|[]]]]]]]; eexists;
    (split; [vm_compute; reflexivity|lia]).
Qed.

Lemma querySelectorAll_tags container :
  Forall (fun el => DOM.tagName el ∈ heading_tags) (querySelectorAll container).
Proof.
  apply Forall_forall. intros el Hel.
  by apply list_elem_of_filter in Hel as [? _].
Qed.

Lemma forEach_heading_spec elements : forall index,
  Forall (fun el => DOM.tagName el ∈ heading_tags) elements ->
  exists els flat,
    forEach_heading index elements = Some (els, flat) /\
    els = imap (fun k el => DOM.mkElement (DOM.tagName el) (DOM.textContent el)
                              (heading_id (index + k) el)) elements /\
    forall f, In f flat ->
      exists k el, elements !! k = Some el /\ entry_of (index + k) el f.
Proof.
  induction elements as [|el rest IH]; intros index Hall.
  - exists [], []. by split_and!.
  - apply Forall_cons in Hall as [Hel Hrest].
    destruct (heading_tag_level _ Hel) as (lvl & Hlvl & Hrange).
    destruct (IH (S index) Hrest) as (els & flat & Hloop & Hels & Hflat).
    cbn [forEach_heading]. unfold heading_of. rewrite Hlvl, Hloop.
    eexists _, _. split_and!; [done|..].
    + cbn [imap]. rewrite Nat.add_0_r. f_equal. rewrite Hels.
      apply imap_ext. intros k el' _. cbn. by rewrite Nat.add_succ_r.
    + assert (Hshift : forall f, In f flat ->
                exists k el', (el :: rest) !! k = Some el'
                              /\ entry_of (index + k) el' f).
      { intros f Hf. destruct (Hflat f Hf) as (k & el' & Hk & He).
        exists (S k), el'. split; [done|]. by rewrite Nat.add_succ_r. }
      case_decide as Htext; [done|].
      intros f [<-|Hf]; [|by apply Hshift].
      exists 0%nat, el. rewrite Nat.add_0_r. by split.
Qed.

(** C8.  Every heading that [extractHeadings] returns has a non-empty,
    whitespace-normalized text and a level from 1 to 6, and comes from a
    heading element of the container; if that element had no id, the
    heading's id is ["heading-<index>"], with the element's position among
    all h1-h6 elements of the container. *)
Theorem extractHeadings_headings (container : list DOM.Element) :
  exists els tree,
    extractHeadings container = Some (els, tree) /\
    forall n, occurs n tree ->
      text n <> [] /\ normalized (text n) /\ 1 <= level n <= 6 /\
      exists index el,
        querySelectorAll container !! index = Some el /\
        text n = heading_text el /\
        parseInt (String.get 1 (DOM.tagName el)) = Some (level n) /\
        (DOM.id el = "" -> id n = "heading-" +:+ pretty index) /\
        (DOM.id el <> "" -> id n = DOM.id el) /\
        els !! index
        = Some (DOM.mkElement (DOM.tagName el) (DOM.textContent el) (id n)).
Proof.
  destruct (forEach_heading_spec _ 0 (querySelectorAll_tags container))
    as (els & flat & Hloop & Hels & Hflat).
  destruct (buildTree_entries flat) as (tree & Htree & Hentries).
  exists els, tree. unfold extractHeadings. rewrite Hloop, Htree.
  split; [done|]. intros n Hn.
  apply occurs_flattenTree, list_elem_of_In in Hn.
  assert (Hin : In (entry n) flat).
  { rewrite <- Hentries. apply list_elem_of_In, list_elem_of_fmap. by exists n. }
  destruct (Hflat _ Hin) as (k & el & Hk & Ht & Hne & Hid & Hlvl & Hrange).
  cbn in Ht, Hne, Hid, Hlvl, Hrange.
  split_and!; [done|rewrite Ht; apply normalized_heading_text|lia..|].
  exists k, el. unfold heading_id in Hid.
  split_and!; [done..| | |].
  - intros He. by rewrite Hid, decide_True.
  - intros He. by rewrite Hid, decide_False.
  - rewrite Hels, list_lookup_imap, Hk. cbn. by rewrite Hid.
Qed.

(* ===================================================================== *)
(** * Proofs: keyboard navigation *)
(* ===================================================================== *)

Section keyboard.
Context {engine : Engine}.

Lemma flatList_setFocusedIndex v st :
  flatList (setFocusedIndex v st) = flatList st.
Proof. reflexivity. Qed.

Lemma handleKeyDown_navigation document key st :
  flatList st <> [] -> In key navigation_keys ->
  exists v,
    handleKeyDown document key st = (setFocusedIndex v st, [PreventDefault]) /\
    (key = "ArrowDown" ->
       v = Z.min (focusedIndex st + 1) (Z.of_nat (length (flatList st)) - 1)) /\
    (key = "ArrowUp" -> v = Z.max (focusedIndex st - 1) 0) /\
    (key = "Home" -> v = 0) /\
    (key = "End" -> v = Z.of_nat (length (flatList st)) - 1).
Proof.
  intros Hne Hkey. unfold handleKeyDown.
  assert (Hlen : (Z.of_nat (length (flatList st)) =? 0) = false).
  { apply Z.eqb_neq. destruct (flatList st); [done|]. cbn [length]. lia. }
  rewrite Hlen.
  destruct Hkey as [<-|[<-|[<-|[<-|[]]]]]; cbn;
    eexists; (split; [reflexivity|]); by split_and!.
Qed.

(** C10, amended.  On a non-empty flattened list, from a focused index
    of at least -1 (the initial value), each of ArrowDown, Home and End
    leaves the focused index within 0 .. length-1, and so does ArrowUp from
    an index that is at most the length: ArrowDown stops at the last item,
    ArrowUp at the first, Home gives 0 and End gives length-1. *)
Theorem handleKeyDown_focus_in_bounds
    (document : string -> bool) (key : string) (st : State) :
  flatList st <> [] ->
  In key navigation_keys ->
  -1 <= focusedIndex st ->
  (key = "ArrowUp" -> focusedIndex st <= Z.of_nat (length (flatList st))) ->
  0 <= focusedIndex (fst (handleKeyDown document key st))
    < Z.of_nat (length (flatList (fst (handleKeyDown document key st)))) /\
  (key = "ArrowDown" ->
     focusedIndex (fst (handleKeyDown document key st))
     = Z.min (focusedIndex st + 1) (Z.of_nat (length (flatList st)) - 1)) /\
  (key = "ArrowUp" ->
     focusedIndex (fst (handleKeyDown document key st))
     = Z.max (focusedIndex st - 1) 0) /\
  (key = "Home" -> focusedIndex (fst (handleKeyDown document key st)) = 0) /\
  (key = "End" ->
     focusedIndex (fst (handleKeyDown document key st))
     = Z.of_nat (length (flatList st)) - 1).
Proof.
  intros Hne Hkey Hprev Hup'.
  destruct (handleKeyDown_navigation document key st Hne Hkey)
    as (v & -> & Hdown & Hup & Hhome & Hend).
  cbn [fst]. rewrite flatList_setFocusedIndex. cbn [focusedIndex setFocusedIndex].
  assert (Hlen : 0 < Z.of_nat (length (flatList st))).
  { destruct (flatList st); [done|]. cbn [length]. lia. }
  split_and!; [| |done..].
  - destruct Hkey as [<-|[<-|[<-|[<-|[]]]]];
      [rewrite Hdown|rewrite Hup|rewrite Hhome|rewrite Hend]; done || lia.
  - destruct Hkey as [<-|[<-|[<-|[<-|[]]]]];
      [rewrite Hdown|rewrite Hup; specialize (Hup' eq_refl)
      |rewrite Hhome|rewrite Hend]; done || lia.
Qed.

End keyboard.

Section keyboard_examples.
#[local] Existing Instance excerpt_engine.

Lemma handleKeyDown_focus_in_bounds_witness :
  let st := mkState [mkHeadingNode "a" (js "A") 1 []; mkHeadingNode "b" (js "B") 1 []]
                    None true [] 2 false in
  0 <= focusedIndex (fst (handleKeyDown (fun _ => true) "ArrowUp" st))
    < Z.of_nat (length (flatList (fst (handleKeyDown (fun _ => true) "ArrowUp" st)))).
Proof.
  intros st.
  refine (proj1 (handleKeyDown_focus_in_bounds (fun _ => true) "ArrowUp" st _ _ _ _)).
  - vm_compute. intros H. discriminate H.
  - vm_compute. right. left. reflexivity.
  - vm_compute. intros H. discriminate H.
  - intros _. vm_compute. intros H. discriminate H.
Defined.

(** C10, as stated, fails.  Five headings are extracted and End moves the
    focus to the last one, index 4; a new extraction finds two headings,
    and the focused index stays.  ArrowUp then gives 3, which is no index
    of the list of two. *)
Lemma ArrowUp_stale_focus :
  let h i := mkHeadingNode i (js "H") 1 [] in
  let st :=
    fold_left (fun st ev => handle (fun _ => true) ev st)
      [HeadingsExtracted [h "a"; h "b"; h "c"; h "d"; h "e"];
       TreeKeyDown InPane "End";
       HeadingsExtracted [h "a"; h "b"]]
      (initial_state true ∅) in
  length (flatList st) = 2%nat /\
  focusedIndex st = 4 /\
  focusedIndex (fst (handleKeyDown (fun _ => true) "ArrowUp" st)) = 3 /\
  ~ (0 <= focusedIndex (fst (handleKeyDown (fun _ => true) "ArrowUp" st))
     < Z.of_nat
         (length (flatList (fst (handleKeyDown (fun _ => true) "ArrowUp" st))))).
Proof.
  cbv zeta. split_and!; [reflexivity..|].
  vm_compute. intros [_ Hlt]. discriminate Hlt.
Qed.

End keyboard_examples.

(* ===================================================================== *)
(** * Proofs: session persistence *)
(* ===================================================================== *)

Section persistence.
Context {engine : Engine}.

Lemma String_of_bool_read b : String.eqb (String_of_bool b) "true" = b.
Proof. by destruct b. Qed.

Lemma mount_in_sync ss : in_sync (mount true ss).
Proof. unfold in_sync, mount, persist_expanded. cbn. apply lookup_insert_eq. Qed.

Lemma step_in_sync document ev tab :
  in_sync tab -> in_sync (step true document ev tab).
Proof.
  unfold in_sync, step, persist_expanded. cbn. intros Hsync.
  destruct (Bool.eqb _ _) eqn:E.
  - apply eqb_prop in E. by rewrite E.
  - apply lookup_insert_eq.
Qed.

Lemma run_in_sync document evs : forall tab,
  in_sync tab -> in_sync (fold_left (fun t ev => step true document ev t) evs tab).
Proof.
  induction evs as [|ev evs IH]; intros tab Hsync; cbn; [done|].
  by apply IH, step_in_sync.
Qed.

Lemma mount_reads_back tab :
  in_sync tab ->
  isExpanded (tab_state (mount true (tab_storage tab)))
  = isExpanded (tab_state tab).
Proof.
  unfold in_sync. intros Hsync. cbn. unfold initial_isExpanded. cbn.
  rewrite Hsync. apply String_of_bool_read.
Qed.

(** C7.  In the browser, the expanded flag is what the component keeps in
    session storage: it is read from the key ["doc-outline-expanded"] when
    the state is initialized (expanded if nothing is stored), nothing else
    of the initial state comes from the storage, every change of the flag
    is written under that key as ["true"] or ["false"], no other key is
    written, and mounting the component again on the same storage gives the
    flag back. *)
Theorem expanded_flag_persisted
    (document : string -> bool) (ss : gmap string string) :
  SESSION_KEY = "doc-outline-expanded" /\
  isExpanded (initial_state true ss)
  = match ss !! SESSION_KEY with
    | Some stored => bool_decide (stored = "true")
    | None => true
    end /\
  initial_state true ss
  = mkState [] None (isExpanded (initial_state true ss)) [] (-1) false /\
  (forall ev tab,
     (isExpanded (tab_state (step true document ev tab))
      <> isExpanded (tab_state tab) ->
      tab_storage (step true document ev tab) !! SESSION_KEY
      = Some (if isExpanded (tab_state (step true document ev tab))
              then "true" else "false")) /\
     (isExpanded (tab_state (step true document ev tab))
      = isExpanded (tab_state tab) ->
      tab_storage (step true document ev tab) = tab_storage tab) /\
     (forall k, k <> SESSION_KEY ->
        tab_storage (step true document ev tab) !! k = tab_storage tab !! k)) /\
  (forall evs,
     isExpanded
       (tab_state
          (mount true
             (tab_storage
                (fold_left (fun t ev => step true document ev t) evs
                           (mount true ss)))))
     = isExpanded
         (tab_state
            (fold_left (fun t ev => step true document ev t) evs
                       (mount true ss)))).
Proof.
  split_and!.
  - reflexivity.
  - cbn. unfold initial_isExpanded. cbn. destruct (ss !! SESSION_KEY) as [v|]; [|done].
    destruct (String.eqb_spec v "true") as [->|Hne];
      [by rewrite bool_decide_eq_true_2|by rewrite bool_decide_eq_false_2].
  - reflexivity.
  - intros ev tab. unfold step, persist_expanded. cbn.
    destruct (Bool.eqb _ _) eqn:E.
    + apply eqb_prop in E. split_and!; [by intros ?|done|done].
    + apply eqb_false_iff in E. split_and!.
      * intros _. rewrite lookup_insert_eq. by destruct (isExpanded _).
      * done.
      * intros k Hk. by rewrite lookup_insert_ne.
  - intros evs. apply mount_reads_back, run_in_sync, mount_in_sync.
Qed.

End persistence.

(* ===================================================================== *)
(** * Proofs: rendering *)
(* ===================================================================== *)

Section rendering.
Context {engine : Engine}.

Lemma DocumentOutline_null visible st :
  DocumentOutline visible st = None <-> visible = false \/ headings st = [].
Proof.
  unfold DocumentOutline. destruct visible; cbn; [|by split; auto].
  destruct (headings st) as [|h hs]; cbn.
  - by split; auto.
  - split; [done|]. by intros [?|?].
Qed.

Lemma truthy_text_spec s : truthy_text s = true <-> s <> [].
Proof. by destruct s. Qed.

Lemma outlineContent_placeholder st :
  searchQuery st <> [] -> flatList st = [] ->
  tree_region (outlineContent st) = Placeholder (searchQuery st).
Proof.
  intros Hq Hflat. unfold outlineContent. cbn. rewrite Hflat. cbn.
  by rewrite (proj2 (truthy_text_spec _) Hq).
Qed.

(** C6, amended.  A visible outline without headings renders nothing.
    With headings, a non-empty query that no heading matches puts the
    placeholder in the tree region of every outline content that is shown,
    and none of them lists items; an outline content is shown when the
    panel is expanded or the mobile drawer is open. *)
Theorem DocumentOutline_empty_states (visible : bool) (st : State) :
  (visible = true -> headings st = [] -> DocumentOutline visible st = None) /\
  (visible = true -> headings st <> [] ->
   searchQuery st <> [] -> flatList st = [] ->
   exists v,
     DocumentOutline visible st = Some v /\
     (forall c, In c (shown_contents v) ->
        tree_region c = Placeholder (searchQuery st)) /\
     (isExpanded st = true \/ mobileOpen st = true -> shown_contents v <> [])).
Proof.
  split.
  - intros _ Hh. apply DocumentOutline_null. by right.
  - intros -> Hh Hq Hflat.
    pose proof (outlineContent_placeholder st Hq Hflat) as Hp.
    unfold DocumentOutline. destruct (headings st) as [|h hs] eqn:Eh; [done|].
    cbn [negb orb length Nat.eqb]. eexists. split; [reflexivity|].
    unfold shown_contents. cbn [desktop mobile].
    split.
    + intros c Hc. apply in_app_or in Hc.
      destruct (isExpanded st), (mobileOpen st), Hc as [Hc|Hc]; cbn in Hc;
        first [by destruct Hc as [<-|[]] | by destruct Hc].
    + intros [->| ->]; [|destruct (isExpanded st)]; cbn; discriminate.
Qed.

End rendering.

Section rendering_examples.
#[local] Existing Instance excerpt_engine.

(** C6, as stated, fails: the query is not empty and no heading matches
    it, but the view shows no placeholder; it shows the rail with a dot for
    the heading. *)
Lemma DocumentOutline_collapsed_no_placeholder :
  searchQuery collapsed_with_query <> [] /\
  filterTree (headings collapsed_with_query) (searchQuery collapsed_with_query) = [] /\
  DocumentOutline true collapsed_with_query
  = Some (mkView (Rail [mkHeadingNode "intro" (js "Intro") 1 []]) FloatingButton) /\
  ~ (exists v c,
       DocumentOutline true collapsed_with_query = Some v /\
       In c (shown_contents v) /\
       tree_region c = Placeholder (searchQuery collapsed_with_query)).
Proof.
  split_and!; [done|reflexivity|reflexivity|].
  intros (v & c & Hv & Hc & _). vm_compute in Hv. injection Hv as <-.
  destruct Hc.
Qed.

Lemma DocumentOutline_empty_states_witness :
  DocumentOutline true (mkState [] None true [] (-1) false) = None /\
  exists v,
    DocumentOutline true (setIsExpanded true collapsed_with_query) = Some v /\
    (forall c, In c (shown_contents v) -> tree_region c = Placeholder (js "zzz")) /\
    shown_contents v <> [].
Proof.
  split.
  - apply (proj1 (DocumentOutline_empty_states true _)); reflexivity.
  - destruct (proj2 (DocumentOutline_empty_states true
                       (setIsExpanded true collapsed_with_query)))
      as (v & Hv & Hc & Hs); [reflexivity|vm_compute; intros H; discriminate H
                              |vm_compute; intros H; discriminate H|reflexivity|].
    exists v. split_and!; [exact Hv|exact Hc|apply Hs; left; reflexivity].
Defined.

End rendering_examples.

(* ===================================================================== *)
(** * Proofs: the image-proxy route *)
(* ===================================================================== *)

Example GET_ok :
  GET (example_platform
         (FetchResolves (Response.mk 200 (Some "image/png") (Some [Byte.x01]))))
      (example_request "https://raw.githubusercontent.com/o/r/main/a.png")
  = NextResponse.mk 200
      [("Content-Type", "image/png");
       ("Cache-Control", "public, max-age=3600, immutable")]
      (NextResponse.Buffer [Byte.x01]).
Proof. vm_compute. reflexivity. Qed.

Example GET_not_found :
  GET (example_platform (FetchResolves (Response.mk 404 None None)))
      (example_request "https://github.com/o/r/raw/main/a.png")
  = NextResponse.json_error "Upstream error (404)" 404.
Proof. vm_compute. reflexivity. Qed.

Example GET_other_host :
  GET (example_platform FetchThrows) (example_request "https://example.com/a.png")
  = NextResponse.json_error "Host not allowed" 403.
Proof. vm_compute. reflexivity. Qed.

Lemma truthy_spec s : truthy s = true <-> s <> "".
Proof.
  unfold truthy. destruct (String.eqb_spec s ""); cbn; split; congruence.
Qed.

Lemma ALLOWED_HOSTS_spec h :
  h ∈ ALLOWED_HOSTS <->
  h = "github.com" \/ h = "raw.githubusercontent.com" \/
  h = "private-user-images.githubusercontent.com" \/
  h = "github-production-user-asset-6210df.s3.amazonaws.com".
Proof.
  unfold ALLOWED_HOSTS. rewrite !elem_of_union, !elem_of_singleton. tauto.
Qed.

Section route.
Variable p : Platform.

(** [new URL("")] throws. *)
Hypothesis URL_parse_empty : URL_parse p "" = None.

Lemma parsed_truthy u parsed : URL_parse p u = Some parsed -> truthy u = true.
Proof. intros Hu. apply truthy_spec. intros ->. congruence. Qed.

(** The handler up to the host check. *)
Lemma GET_allowed request u parsed :
  searchParams_get "url" (searchParams request) = Some u ->
  URL_parse p u = Some parsed ->
  hostname parsed ∈ ALLOWED_HOSTS ->
  GET p request
  = match getGitHubToken p with
    | None => NextResponse.json_error "Not authenticated" 401
    | Some token =>
        if negb (truthy token)
        then NextResponse.json_error "Not authenticated" 401
        else proxy p u token
    end.
Proof.
  intros Hurl Hparse Hhost. unfold GET.
  rewrite Hurl, (parsed_truthy _ _ Hparse), Hparse. cbn [negb].
  by rewrite bool_decide_eq_true_2.
Qed.

Lemma GET_with_token request u parsed token :
  searchParams_get "url" (searchParams request) = Some u ->
  URL_parse p u = Some parsed ->
  hostname parsed ∈ ALLOWED_HOSTS ->
  getGitHubToken p = Some token -> token <> "" ->
  GET p request = proxy p u token.
Proof.
  intros Hurl Hparse Hhost Htok Hne.
  rewrite (GET_allowed _ _ _ Hurl Hparse Hhost), Htok.
  by rewrite (proj2 (truthy_spec token) Hne).
Qed.

Lemma not_ok res :
  ~ (200 <= Response.status res <= 299) -> Response.ok res = false.
Proof. unfold Response.ok. intros H. apply andb_false_iff. lia. Qed.

Lemma is_ok res :
  200 <= Response.status res <= 299 -> Response.ok res = true.
Proof. unfold Response.ok. intros H. apply andb_true_iff. lia. Qed.

(** C1, amended.  The error answers of the route, in the order of its
    checks: 400 if the [url] parameter is absent or is not a URL, else 403
    if the host is not one of the four allowed hosts, else 401 without a
    token, else 502 if the upstream fetch throws; an upstream status that
    is not a 2xx one is forwarded if it is in 300-599 and is not 304, and
    is answered by 502 otherwise, [NextResponse.json] throwing for it
    inside the [try].  The body is a JSON object with an error message
    every time. *)
Theorem GET_error_statuses (request : NextRequest) :
  (forall h, h ∈ ALLOWED_HOSTS <->
     h = "github.com" \/ h = "raw.githubusercontent.com" \/
     h = "private-user-images.githubusercontent.com" \/
     h = "github-production-user-asset-6210df.s3.amazonaws.com") /\
  ((searchParams_get "url" (searchParams request) = None \/
    exists u, searchParams_get "url" (searchParams request) = Some u /\
              URL_parse p u = None) ->
   NextResponse.status (GET p request) = 400 /\ is_error (GET p request)) /\
  (forall u parsed,
     searchParams_get "url" (searchParams request) = Some u ->
     URL_parse p u = Some parsed ->
     (hostname parsed ∉ ALLOWED_HOSTS ->
      NextResponse.status (GET p request) = 403 /\ is_error (GET p request)) /\
     (hostname parsed ∈ ALLOWED_HOSTS ->
      (no_token p ->
       NextResponse.status (GET p request) = 401 /\ is_error (GET p request)) /\
      (forall token,
         getGitHubToken p = Some token -> token <> "" ->
         (fetch p u (upstream_init token) = FetchThrows ->
          NextResponse.status (GET p request) = 502 /\
          is_error (GET p request)) /\
         (forall res,
            fetch p u (upstream_init token) = FetchResolves res ->
            ~ (200 <= Response.status res <= 299) ->
            is_error (GET p request) /\
            (300 <= Response.status res <= 599 ->
             Response.status res <> 304 ->
             NextResponse.status (GET p request) = Response.status res) /\
            (Response.status res < 200 \/ Response.status res = 304 \/
             599 < Response.status res ->
             NextResponse.status (GET p request) = 502))))).
Proof.
  split; [apply ALLOWED_HOSTS_spec|]. split.
  - unfold GET. intros [->|(u & -> & Hu)]; [by split; [|eexists]|].
    destruct (truthy u); cbn [negb]; [rewrite Hu|]; by split; [|eexists].
  - intros u parsed Hurl Hparse. split.
    + intros Hhost. unfold GET.
      rewrite Hurl, (parsed_truthy _ _ Hparse), Hparse. cbn [negb].
      rewrite bool_decide_eq_false_2 by done. by split; [|eexists].
    + intros Hhost. split.
      * rewrite (GET_allowed _ _ _ Hurl Hparse Hhost).
        intros [-> | ->]; by split; [|eexists].
      * intros token Htok Hne.
        rewrite (GET_with_token _ _ _ _ Hurl Hparse Hhost Htok Hne).
        unfold proxy. split.
        -- intros ->. by split; [|eexists].
        -- intros res -> Hnot. rewrite (not_ok _ Hnot). cbn [negb].
           unfold NextResponse.json.
           destruct (NextResponse.refused_status (Response.status res)) eqn:E;
             unfold NextResponse.refused_status in E;
             (split_and!; [by eexists| |]); cbn; lia.
Qed.

(** C5, amended.  For an allowed URL, with a token, when the upstream
    fetch answers with a 2xx status and its body is read, the response
    has that body, and its Content-Type is the upstream content type if
    there is a non-empty one and ["application/octet-stream"] otherwise.
    The upstream request is the one for the given URL with the header
    [Authorization: token <token>]: the response does not depend on what
    [fetch] does on any other request. *)
Theorem GET_success (request : NextRequest) (u : string) (parsed : URL)
    (token : string) (res : Response.t) (bytes : list Byte.byte) :
  searchParams_get "url" (searchParams request) = Some u ->
  URL_parse p u = Some parsed ->
  hostname parsed ∈ ALLOWED_HOSTS ->
  getGitHubToken p = Some token -> token <> "" ->
  fetch p u (upstream_init token) = FetchResolves res ->
  200 <= Response.status res <= 299 ->
  Response.arrayBuffer res = Some bytes ->
  NextResponse.body (GET p request) = NextResponse.Buffer bytes /\
  NextResponse.status (GET p request) = 200 /\
  (forall ct, Response.content_type res = Some ct -> ct <> "" ->
     NextResponse.header "Content-Type" (GET p request) = Some ct) /\
  (Response.content_type res = None \/ Response.content_type res = Some "" ->
   NextResponse.header "Content-Type" (GET p request)
   = Some "application/octet-stream") /\
  In ("Authorization", "token " +:+ token) (init_headers (upstream_init token)) /\
  (forall p',
     URL_parse p' = URL_parse p -> getGitHubToken p' = getGitHubToken p ->
     fetch p' u (upstream_init token) = fetch p u (upstream_init token) ->
     GET p' request = GET p request).
Proof.
  intros Hurl Hparse Hhost Htok Hne Hfetch Hok Hbody.
  rewrite (GET_with_token _ _ _ _ Hurl Hparse Hhost Htok Hne).
  unfold proxy. rewrite Hfetch, (is_ok _ Hok), Hbody. cbn [negb].
  split_and!; [done|done| | |by left|].
  - intros ct Hct Hcne. unfold contentType_of. rewrite Hct.
    rewrite (proj2 (truthy_spec ct) Hcne). reflexivity.
  - unfold contentType_of. intros [-> | ->]; reflexivity.
  - intros p' HU HT HF. unfold GET. rewrite HU, HT, Hurl, Hparse, Htok.
    rewrite (parsed_truthy _ _ Hparse), (proj2 (truthy_spec token) Hne).
    cbn [negb]. rewrite (bool_decide_eq_true_2 _ Hhost). cbn [negb].
    unfold proxy. rewrite HF, (is_ok _ Hok), Hbody. reflexivity.
Qed.
End route.

Lemma GET_error_statuses_witness :
  NextResponse.status
    (GET (example_platform (FetchResolves (Response.mk 404 None None)))
         (example_request "https://github.com/o/r/raw/main/a.png")) = 404 /\
  is_error
    (GET (example_platform (FetchResolves (Response.mk 404 None None)))
         (example_request "https://github.com/o/r/raw/main/a.png")).
Proof.
  destruct (GET_error_statuses
              (example_platform (FetchResolves (Response.mk 404 None None)))
              eq_refl
              (example_request "https://github.com/o/r/raw/main/a.png"))
    as (_ & _ & H).
  destruct (H "https://github.com/o/r/raw/main/a.png" (mkURL "github.com")
              eq_refl eq_refl) as [_ Hallowed].
  destruct Hallowed as [_ Htoken].
  { apply ALLOWED_HOSTS_spec. left. reflexivity. }
  destruct (Htoken "t0k" eq_refl) as [_ Hres].
  { intros H0. discriminate H0. }
  destruct (Hres (Response.mk 404 None None) eq_refl) as (Herr & Hfwd & _).
  { cbn. lia. }
  split; [|exact Herr]. apply Hfwd; cbn; lia.
Defined.

(** C1, as stated, fails.  The request passes every check and the
    upstream answers 304.  The handler asks [NextResponse.json] for a
    response with the status 304, which throws for a null-body status;
    this happens inside the [try], and the [catch] answers 502: the
    upstream status is not forwarded. *)
Lemma GET_upstream_304 :
  let p := example_platform (FetchResolves (Response.mk 304 None None)) in
  let url := "https://github.com/o/r/raw/main/a.png" in
  let request := example_request url in
  searchParams_get "url" (searchParams request) = Some url /\
  URL_parse p url = Some (mkURL "github.com") /\
  "github.com" ∈ ALLOWED_HOSTS /\
  getGitHubToken p = Some "t0k" /\
  fetch p url (upstream_init "t0k") = FetchResolves (Response.mk 304 None None) /\
  Response.ok (Response.mk 304 None None) = false /\
  NextResponse.json "Upstream error (304)" 304 = None /\
  GET p request = NextResponse.json_error "Failed to fetch image" 502 /\
  NextResponse.status (GET p request) <> 304.
Proof.
  cbv zeta. split_and!.
  1-2, 4-8: reflexivity.
  - apply ALLOWED_HOSTS_spec. left. reflexivity.
  - vm_compute. intros H. discriminate H.
Qed.

(** C5, as stated, fails: the upstream answer is a 2xx one without a
    content type, and the response has the Content-Type
    ["application/octet-stream"]. *)
Lemma GET_content_type_default :
  let p := example_platform (FetchResolves untyped_answer) in
  let request := example_request "https://raw.githubusercontent.com/o/r/main/a.png" in
  searchParams_get "url" (searchParams request)
    = Some "https://raw.githubusercontent.com/o/r/main/a.png" /\
  URL_parse p "https://raw.githubusercontent.com/o/r/main/a.png"
    = Some (mkURL "raw.githubusercontent.com") /\
  "raw.githubusercontent.com" ∈ ALLOWED_HOSTS /\
  getGitHubToken p = Some "t0k" /\
  fetch p "https://raw.githubusercontent.com/o/r/main/a.png" (upstream_init "t0k")
    = FetchResolves untyped_answer /\
  Response.ok untyped_answer = true /\
  NextResponse.body (GET p request) = NextResponse.Buffer [Byte.x89; Byte.x50] /\
  NextResponse.header "Content-Type" (GET p request)
    = Some "application/octet-stream" /\
  NextResponse.header "Content-Type" (GET p request)
    <> Response.content_type untyped_answer.
Proof.
  cbv zeta. split_and!.
  1-2, 4-8: reflexivity.
  - apply ALLOWED_HOSTS_spec. right. left. reflexivity.
  - vm_compute. intros H. discriminate H.
Qed.

Lemma GET_success_witness :
  NextResponse.body
    (GET (example_platform
            (FetchResolves (Response.mk 200 (Some "image/png") (Some [Byte.x89]))))
         (example_request "https://github.com/o/r/raw/main/a.png"))
  = NextResponse.Buffer [Byte.x89] /\
  NextResponse.header "Content-Type"
    (GET (example_platform
            (FetchResolves (Response.mk 200 (Some "image/png") (Some [Byte.x89]))))
         (example_request "https://github.com/o/r/raw/main/a.png"))
  = Some "image/png".
Proof.
  destruct (GET_success
              (example_platform
                 (FetchResolves (Response.mk 200 (Some "image/png") (Some [Byte.x89]))))
              eq_refl
              (example_request "https://github.com/o/r/raw/main/a.png")
              "https://github.com/o/r/raw/main/a.png" (mkURL "github.com")
              "t0k" (Response.mk 200 (Some "image/png") (Some [Byte.x89]))
              [Byte.x89])
    as (Hbody & _ & Hct & _).
  - reflexivity.
  - reflexivity.
  - apply ALLOWED_HOSTS_spec. left. reflexivity.
  - reflexivity.
  - intros H. discriminate H.
  - reflexivity.
  - cbn. lia.
  - reflexivity.
  - split; [exact Hbody|]. apply (Hct "image/png" eq_refl).
    intros H. discriminate H.
Defined.

(* ===================================================================== *)
(** * Further properties: filterTree *)
(* ===================================================================== *)

Lemma occurs_trans n d l :
  occurs n l -> occurs d (children n) -> occurs d l.
Proof.
  induction 1 as [ts|t ts _ IH|t ts _ IH]; intros Hd.
  - by apply occurs_below.
  - by apply occurs_below, IH.
  - by apply occurs_later, IH.
Qed.

Lemma includes_inner s a q b :
  includes s (a ++ q ++ b) = true -> includes s q = true.
Proof.
  rewrite !includes_spec. intros (pre & post & ->).
  exists (pre ++ a), (b ++ post). by rewrite <- !app_assoc.
Qed.

Section filter_more.
Context {engine : Engine}.

Lemma entry_pruned_copy q n : entry (pruned_copy q n) = entry n.
Proof. by destruct n. Qed.

Lemma children_pruned_copy q n :
  children (pruned_copy q n) = prune q (children n).
Proof. by destruct n. Qed.

Lemma prune_cons q n l :
  prune q (n :: l)
  = if matches q n then pruned_copy q n :: prune q l else prune q l.
Proof. reflexivity. Qed.

(** A root that fails the test is dropped; the flattened list of what is
    kept is the flattened list of the input with entries left out. *)
Lemma prune_flat_sublist_step q l :
  Forall (fun n => (entry <$> flattenTree (prune q (children n)))
                     `sublist_of` (entry <$> flattenTree (children n))) l ->
  (entry <$> flattenTree (prune q l)) `sublist_of` (entry <$> flattenTree l).
Proof.
  induction 1 as [|n l Hn _ IH]; [done|].
  rewrite prune_cons, (flattenTree_cons n), fmap_cons, fmap_app.
  destruct (matches q n).
  - rewrite flattenTree_cons, fmap_cons, fmap_app, entry_pruned_copy,
      children_pruned_copy.
    apply sublist_skip, sublist_app; done.
  - apply sublist_cons. by apply sublist_inserts_l.
Qed.

Lemma prune_flat_sublist q l :
  (entry <$> flattenTree (prune q l)) `sublist_of` (entry <$> flattenTree l).
Proof.
  assert (Hnode : forall n,
    (entry <$> flattenTree (prune q (children n)))
      `sublist_of` (entry <$> flattenTree (children n))).
  { induction n as [i t lv cs IH] using HeadingNode_forall.
    cbn [children]. by apply prune_flat_sublist_step. }
  apply prune_flat_sublist_step, List.Forall_forall. intros n _. apply Hnode.
Qed.

(** X1.  The flattened filtered tree lists entries of the flattened input
    tree, in the same order, with entries left out: filtering never adds,
    changes or reorders a heading, and never makes the list longer. *)
Theorem filterTree_flat_sublist (nodes : list HeadingNode) (query : jsstring) :
  (entry <$> flattenTree (filterTree nodes query))
    `sublist_of` (entry <$> flattenTree nodes) /\
  (length (flattenTree (filterTree nodes query)) <= length (flattenTree nodes))%nat.
Proof.
  pose proof (prune_flat_sublist (toLowerCase query) nodes) as Hsub.
  split; [exact Hsub|].
  apply sublist_length in Hsub. by rewrite !length_fmap in Hsub.
Qed.

(** ** Nodes of the filtered tree, at any depth *)

Lemma matches_of_occurs q d l :
  occurs d l -> matches q d = true -> existsb (matches q) l = true.
Proof.
  induction 1 as [ts|t ts _ IH|t ts _ IH]; intros Hd; cbn [existsb].
  - by rewrite Hd.
  - by rewrite (matches_unfold q t), (IH Hd), orb_true_r.
  - by rewrite (IH Hd), orb_true_r.
Qed.

Lemma matches_of_descendant q d t :
  occurs d (children t) -> matches q d = true -> matches q t = true.
Proof.
  intros Hd Hm. rewrite matches_unfold, (matches_of_occurs _ _ _ Hd Hm).
  apply orb_true_r.
Qed.

Lemma occurs_prune q n l :
  occurs n l -> matches q n = true -> occurs (pruned_copy q n) (prune q l).
Proof.
  induction 1 as [ts|t ts Hsub IH|t ts _ IH]; intros Hm; rewrite prune_cons.
  - rewrite Hm. constructor.
  - rewrite (matches_of_descendant _ _ _ Hsub Hm).
    apply occurs_below. rewrite children_pruned_copy. by apply IH.
  - destruct (matches q t); [apply occurs_later|]; by apply IH.
Qed.

Lemma occurs_prune_inv q l : forall n',
  occurs n' (prune q l) ->
  exists n, occurs n l /\ matches q n = true /\ n' = pruned_copy q n.
Proof.
  assert (Hstep : forall l,
    Forall (fun t => forall n', occurs n' (prune q (children t)) ->
       exists n, occurs n (children t) /\ matches q n = true
                 /\ n' = pruned_copy q n) l ->
    forall n', occurs n' (prune q l) ->
      exists n, occurs n l /\ matches q n = true /\ n' = pruned_copy q n).
  { clear l. induction 1 as [|t ts Ht _ IH]; intros n' Hn'.
    - inversion Hn'.
    - rewrite prune_cons in Hn'. destruct (matches q t) eqn:Et.
      + inversion Hn' as [ts' E|t' ts' Hsub E|t' ts' Hlater E]; subst.
        * exists t. split_and!; [constructor|done|done].
        * rewrite children_pruned_copy in Hsub.
          destruct (Ht _ Hsub) as (n & Hn & Hm & ->).
          exists n. split_and!; [by apply occurs_below|done|done].
        * destruct (IH _ Hlater) as (n & Hn & Hm & ->).
          exists n. split_and!; [by apply occurs_later|done|done].
      + destruct (IH _ Hn') as (n & Hn & Hm & ->).
        exists n. split_and!; [by apply occurs_later|done|done]. }
  assert (Hnode : forall t n', occurs n' (prune q (children t)) ->
    exists n, occurs n (children t) /\ matches q n = true
              /\ n' = pruned_copy q n).
  { induction t as [i tx lv cs IH] using HeadingNode_forall.
    cbn [children]. by apply Hstep. }
  apply Hstep, List.Forall_forall. intros t _. apply Hnode.
Qed.

Lemma pruned_leaf_includes q n :
  matches q n = true -> children (pruned_copy q n) = [] ->
  includes (toLowerCase (text n)) q = true.
Proof.
  rewrite matches_unfold, children_pruned_copy, prune_filter.
  destruct (includes _ _); [done|]. cbn [orb].
  rewrite existsb_exists. intros (c & Hin & Hc) Hnil.
  assert (Hc' : In c (List.filter (matches q) (children n)))
    by by apply filter_In.
  destruct (List.filter (matches q) (children n)); [destruct Hc'|discriminate].
Qed.

(** X2.  At every depth: a node of the input whose text, or a descendant's
    text, contains the query, both in lower case, is in the filtered tree,
    as a copy with filtered children; every node of the filtered tree is
    such a copy; and a node of the filtered tree without children
    contains the query itself, both in lower case. *)
Theorem filterTree_nodes (nodes : list HeadingNode) (query : jsstring) :
  (forall n, occurs n nodes -> kept query n ->
     occurs (mkHeadingNode (id n) (text n) (level n)
                           (filterTree (children n) query))
            (filterTree nodes query)) /\
  (forall n', occurs n' (filterTree nodes query) ->
     exists n, occurs n nodes /\ kept query n /\
       n' = mkHeadingNode (id n) (text n) (level n)
                          (filterTree (children n) query)) /\
  (forall n', occurs n' (filterTree nodes query) -> children n' = [] ->
     lower_contains (text n') query).
Proof.
  unfold filterTree. split_and!.
  - intros n Hn Hk. rewrite <- pruned_copy_unfold.
    apply occurs_prune; [done|]. by apply matches_kept.
  - intros n' Hn'. destruct (occurs_prune_inv _ _ _ Hn') as (n & Hn & Hm & ->).
    exists n. split_and!; [done|by apply matches_kept|apply pruned_copy_unfold].
  - intros n' Hn' Hleaf.
    destruct (occurs_prune_inv _ _ _ Hn') as (n & Hn & Hm & ->).
    apply includes_lower. rewrite pruned_copy_unfold. cbn [text].
    by apply pruned_leaf_includes.
Qed.

Lemma no_match_iff nodes query :
  filterTree nodes query = [] <->
  forall n, occurs n nodes -> ~ lower_contains (text n) query.
Proof.
  unfold filterTree. split.
  - intros Hnil n Hn Hc.
    assert (Hm : matches (toLowerCase query) n = true)
      by (apply matches_kept; by left).
    pose proof (occurs_prune _ _ _ Hn Hm) as Ho. rewrite Hnil in Ho.
    inversion Ho.
  - intros Hnone.
    destruct (prune (toLowerCase query) nodes) as [|n' rest] eqn:Ep; [done|].
    assert (Ho : occurs n' (prune (toLowerCase query) nodes))
      by (rewrite Ep; constructor).
    destruct (occurs_prune_inv _ _ _ Ho) as (n & Hn & Hm & _).
    apply matches_kept in Hm as [Hself|(d & Hd & Hq)].
    + by destruct (Hnone n Hn).
    + destruct (Hnone d); [|done]. by eapply occurs_trans.
Qed.

(** X23.  The filtered tree is empty exactly when no heading of the
    tree, at any depth, contains the query, both in lower case: then, and
    only then, a non-empty query leaves nothing to list. *)
Theorem filterTree_empty_iff (nodes : list HeadingNode) (query : jsstring) :
  filterTree nodes query = [] <->
  forall n, occurs n nodes -> ~ lower_contains (text n) query.
Proof. apply no_match_iff. Qed.

(** ** Narrowing a query *)

Section narrowing.
Variables q q' : jsstring.

(** Whatever contains [q'] contains [q]. *)
Hypothesis narrower : forall s, includes s q' = true -> includes s q = true.

Lemma matches_narrower n : matches q' n = true -> matches q n = true.
Proof.
  induction n as [i t lv cs IH] using HeadingNode_forall.
  rewrite !matches_unfold. cbn [text children].
  rewrite !orb_true_iff, !existsb_exists.
  intros [Hs|(c & Hin & Hc)]; [left; by apply narrower|right].
  exists c. split; [done|]. by apply (proj1 (List.Forall_forall _ _) IH c Hin).
Qed.

Lemma existsb_prune (f : HeadingNode -> bool) cs :
  Forall (fun c => matches q c = true -> f (pruned_copy q c) = matches q' c) cs ->
  existsb f (prune q cs) = existsb (matches q') cs.
Proof.
  induction 1 as [|c cs Hc _ IH]; [done|].
  rewrite prune_cons. cbn [existsb]. destruct (matches q c) eqn:Ec.
  - cbn [existsb]. by rewrite (Hc eq_refl), IH.
  - rewrite IH. destruct (matches q' c) eqn:Ec'; [|done].
    apply matches_narrower in Ec'. congruence.
Qed.

Lemma matches_pruned_narrower n :
  matches q n = true -> matches q' (pruned_copy q n) = matches q' n.
Proof.
  induction n as [i t lv cs IH] using HeadingNode_forall. intros _.
  rewrite pruned_copy_unfold, !matches_unfold. cbn [text children].
  f_equal. by apply existsb_prune.
Qed.

Lemma prune_prune_step l :
  Forall (fun n => prune q' (prune q (children n)) = prune q' (children n)) l ->
  prune q' (prune q l) = prune q' l.
Proof.
  induction 1 as [|n l Hn _ IH]; [done|].
  rewrite (prune_cons q n), (prune_cons q' n).
  destruct (matches q n) eqn:En.
  - rewrite prune_cons, (matches_pruned_narrower _ En), IH.
    destruct (matches q' n); [|done]. f_equal.
    rewrite !pruned_copy_unfold. cbn [id text level children]. by rewrite Hn.
  - rewrite IH. destruct (matches q' n) eqn:En'; [|done].
    apply matches_narrower in En'. congruence.
Qed.

Lemma prune_prune l : prune q' (prune q l) = prune q' l.
Proof.
  assert (Hnode : forall n,
    prune q' (prune q (children n)) = prune q' (children n)).
  { induction n as [i t lv cs IH] using HeadingNode_forall.
    cbn [children]. by apply prune_prune_step. }
  apply prune_prune_step, List.Forall_forall. intros n _. apply Hnode.
Qed.

Lemma all_match_narrower n : all_match q' n -> all_match q n.
Proof.
  induction n as [i t lv cs IH] using HeadingNode_forall.
  intros Hall. inversion Hall as [n Hm Hcs]; subst n. cbn [children] in Hcs.
  constructor; [by apply matches_narrower|]. cbn [children].
  clear Hall Hm. induction IH as [|c cs Hc _ IHcs]; [done|].
  apply Forall_cons in Hcs as [Hac Hcs]. constructor; auto.
Qed.

Lemma prune_prune_wider l : prune q (prune q' l) = prune q' l.
Proof.
  apply prune_all_match.
  eapply Forall_impl; [apply all_match_prune|]. apply all_match_narrower.
Qed.
End narrowing.

(** X3.  Narrowing a query: when a wider query in lower case contains a
    query in lower case as a substring, filtering by both, in either
    order, gives what filtering by the wider query gives. *)
Theorem filterTree_narrowing (nodes : list HeadingNode) (query wider : jsstring) :
  lower_contains wider query ->
  filterTree (filterTree nodes query) wider = filterTree nodes wider /\
  filterTree (filterTree nodes wider) query = filterTree nodes wider.
Proof.
  intros (pre & post & Hw). unfold filterTree.
  assert (Hn : forall s,
    includes s (toLowerCase wider) = true ->
    includes s (toLowerCase query) = true).
  { intros s. rewrite Hw. apply includes_inner. }
  split; [by apply prune_prune|by apply prune_prune_wider].
Qed.

(** ** Nesting *)

Lemma level_pruned_copy q n : level (pruned_copy q n) = level n.
Proof. by destruct n. Qed.

Lemma strictly_deeper_pruned_copy q n :
  strictly_deeper n -> strictly_deeper (pruned_copy q n).
Proof.
  induction n as [i t lv cs IH] using HeadingNode_forall.
  intros Hd. inversion Hd as [n Hlv Hsub]; subst n. cbn [children level] in *.
  constructor; rewrite children_pruned_copy, prune_filter; cbn [children].
  - rewrite level_pruned_copy. cbn [level].
    apply List.Forall_forall. intros c' Hc'.
    apply in_map_iff in Hc' as (c & <- & Hc). apply filter_In in Hc as [Hin _].
    rewrite level_pruned_copy.
    by apply (proj1 (List.Forall_forall _ _) Hlv).
  - apply List.Forall_forall. intros c' Hc'.
    apply in_map_iff in Hc' as (c & <- & Hc). apply filter_In in Hc as [Hin _].
    apply (proj1 (List.Forall_forall _ _) IH c Hin).
    by apply (proj1 (List.Forall_forall _ _) Hsub).
Qed.

(** X4.  Filtering keeps the nesting: if in the input every child is
    strictly deeper than its parent, at every depth, the same holds in the
    filtered tree. *)
Theorem filterTree_keeps_nesting (nodes : list HeadingNode) (query : jsstring) :
  Forall strictly_deeper nodes ->
  Forall strictly_deeper (filterTree nodes query).
Proof.
  intros Hd. unfold filterTree. rewrite prune_filter.
  apply List.Forall_forall. intros n' Hn'.
  apply in_map_iff in Hn' as (n & <- & Hn). apply filter_In in Hn as [Hin _].
  apply strictly_deeper_pruned_copy.
  by apply (proj1 (List.Forall_forall _ _) Hd).
Qed.

End filter_more.

Section filter_more_examples.
#[local] Existing Instance excerpt_engine.

Lemma filterTree_narrowing_witness :
  let nodes :=
    [mkHeadingNode "a" (js "Intro") 1 [mkHeadingNode "b" (js "Setup GUIDE") 2 []];
     mkHeadingNode "c" (js "Usage") 1 []] in
  filterTree (filterTree nodes (js "Gui")) (js "guide")
  = filterTree nodes (js "guide").
Proof.
  intros nodes.
  refine (proj1 (filterTree_narrowing nodes (js "Gui") (js "guide") _)).
  exists [], (js "de"). reflexivity.
Defined.

Lemma filterTree_keeps_nesting_witness :
  Forall strictly_deeper
    (filterTree [mkHeadingNode "a" (js "Intro") 1 [mkHeadingNode "b" (js "Setup") 2 []]]
                (js "set")).
Proof.
  apply filterTree_keeps_nesting.
  repeat (constructor; cbn [children level]; try lia).
Defined.

End filter_more_examples.

(* ===================================================================== *)
(** * Further properties: buildTree *)
(* ===================================================================== *)

Example outline_ex :
  outline [mkFlat "a" (js "A") 2; mkFlat "b" (js "B") 3; mkFlat "c" (js "C") 1;
           mkFlat "d" (js "D") 3; mkFlat "e" (js "E") 2]
  = [mkHeadingNode "a" (js "A") 2 [mkHeadingNode "b" (js "B") 3 []];
     mkHeadingNode "c" (js "C") 1
       [mkHeadingNode "d" (js "D") 3 []; mkHeadingNode "e" (js "E") 2 []]].
Proof. reflexivity. Qed.

(** ** What the popping loop removes *)

Lemma pop_while_popped lvl st :
  exists popped,
    st = popped ++ pop_while lvl st /\ Forall (fun e => lvl <= snd e) popped.
Proof.
  induction st as [|[a l] st (p & IH & Hp)]; cbn; [by exists []|].
  destruct (l >=? lvl) eqn:E; [|by exists []].
  exists ((a, l) :: p). split; [cbn; by f_equal|].
  constructor; [|done]. cbn. rewrite Z.geb_leb in E. by apply Z.leb_le.
Qed.

(** ** Sibling order in the heap *)

Lemma sib_ok_keeps h h' cs : keeps_levels h h' -> sib_ok h cs -> sib_ok h' cs.
Proof.
  intros Hk Hs i c1 c2 H1 H2.
  destruct (Hs i c1 c2 H1 H2) as (o1 & o2 & Ho1 & Ho2 & Hle).
  destruct (Hk _ _ Ho1) as (o1' & Ho1' & E1).
  destruct (Hk _ _ Ho2) as (o2' & Ho2' & E2).
  exists o1', o2'. split_and!; [done..|lia].
Qed.

Lemma sib_ok_nil h : sib_ok h [].
Proof. intros i c1 c2 H. by rewrite lookup_nil in H. Qed.

Lemma sib_ok_snoc h cs n :
  sib_ok h cs ->
  (forall q, last cs = Some q ->
     exists oq on, h !! q = Some oq /\ h !! n = Some on
                   /\ o_level on <= o_level oq) ->
  sib_ok h (cs ++ [n]).
Proof.
  intros Hs Hlast i c1 c2 H1 H2.
  apply lookup_app_Some in H2 as [H2|[Hlen H2]].
  - apply lookup_lt_Some in H2 as Hlt.
    rewrite lookup_app_l in H1 by lia. by apply (Hs i).
  - apply list_lookup_singleton_Some in H2 as [Hi <-].
    assert (Hi' : i = pred (length cs)) by lia.
    rewrite lookup_app_l in H1 by lia.
    apply Hlast. by rewrite last_lookup, <- Hi'.
Qed.

Lemma spine_chain h open : forall s cs,
  spine h s cs open -> last_child_chain h cs open.
Proof.
  induction open as [|[a l] open IH]; intros s cs; cbn; [done|].
  intros (ts & fin & o & -> & _ & Ho & Hs). split; [by exists fin|].
  exists o. split; [done|]. by eapply IH.
Qed.

Lemma chain_above h open1 : forall cs p lp q lq open2,
  last_child_chain h cs (open1 ++ (p, lp) :: (q, lq) :: open2) ->
  exists o fin, h !! p = Some o /\ o_children o = fin ++ [q].
Proof.
  induction open1 as [|[a l] open1 IH]; intros cs p lp q lq open2; cbn.
  - intros (_ & o & Ho & (fin & Hfin) & _). by exists o, fin.
  - intros (_ & o & _ & Hc). by eapply IH.
Qed.

(** The array that receives the new node, and the last element it has:
    the stack entry that was just above, which the loop popped. *)
Lemma popped_last_root h rt popped :
  last_child_chain h rt (rev popped) -> stack_ok h popped ->
  forall lvl, Forall (fun e => lvl <= snd e) popped ->
  forall q, last rt = Some q -> popped <> [] ->
    exists oq, h !! q = Some oq /\ lvl <= o_level oq.
Proof.
  intros Hc Hst lvl Hp q Hq Hne.
  destruct popped as [|e front _] using rev_ind; [done|].
  rewrite rev_app_distr in Hc. destruct e as [b lb]. cbn in Hc.
  destruct Hc as ((fin & ->) & _). rewrite last_snoc in Hq. injection Hq as <-.
  apply Forall_app in Hst as [_ Hst]. apply Forall_inv in Hst as (oq & Hoq & E).
  apply Forall_app in Hp as [_ Hp]. apply Forall_inv in Hp.
  cbn in *. exists oq. split; [done|lia].
Qed.

Lemma popped_last_child h rt popped p lp rest :
  last_child_chain h rt (rev (popped ++ (p, lp) :: rest)) ->
  stack_ok h popped ->
  forall lvl, Forall (fun e => lvl <= snd e) popped ->
  popped <> [] ->
  forall op q, h !! p = Some op -> last (o_children op) = Some q ->
    exists oq, h !! q = Some oq /\ lvl <= o_level oq.
Proof.
  intros Hc Hst lvl Hp Hne op q Hop Hq.
  destruct popped as [|e front _] using rev_ind; [done|].
  destruct e as [b lb].
  rewrite <- app_assoc, rev_app_distr in Hc. cbn in Hc.
  rewrite <- !app_assoc in Hc. cbn in Hc.
  apply chain_above in Hc as (o & fin & Ho & Hfin).
  assert (o = op) by congruence. subst o.
  rewrite Hfin, last_snoc in Hq. injection Hq as <-.
  apply Forall_app in Hst as [_ Hst]. apply Forall_inv in Hst as (oq & Hoq & E).
  apply Forall_app in Hp as [_ Hp]. apply Forall_inv in Hp.
  cbn in *. exists oq. split; [done|lia].
Qed.

Lemma build_inv_sib_init : build_inv_sib (mkBuild [] [] []).
Proof.
  constructor; cbn; [apply sib_ok_nil| |done].
  intros a o Ha. by rewrite lookup_nil in Ha.
Qed.

Lemma build_inv_sib_step seen st item :
  build_inv seen st -> build_inv_sib st ->
  build_inv_sib (buildTree_step st item).
Proof.
  intros [Hsp Hlv Hst _] [Hroot Hkids Htop]. destruct item as [iid itx ilv].
  unfold buildTree_step. cbn [flat_id flat_text flat_level].
  set (new := mkObj iid itx ilv []). set (n := length (heap st)).
  assert (Hnew : (heap st ++ [new]) !! n = Some new)
    by by apply list_lookup_middle.
  destruct (pop_while_popped ilv (stack st)) as (popped & Hstack & Hpop).
  apply spine_chain in Hsp. rewrite Hstack in Hsp, Hst, Htop.
  apply Forall_app in Hst as [Hst_pop Hst_rest].
  pose proof (keeps_levels_alloc (heap st) new) as Halloc.
  destruct (pop_while ilv (stack st)) as [|[p lp] rest] eqn:E.
  - rewrite app_nil_r in Hsp, Htop. constructor; cbn [heap root stack].
    + apply sib_ok_snoc; [by eapply sib_ok_keeps|].
      intros q Hq. destruct popped as [|e popped'] eqn:Ep.
      { rewrite Htop in Hq. discriminate. }
      rewrite <- Ep in *.
      destruct (popped_last_root _ _ _ Hsp Hst_pop ilv Hpop q Hq)
        as (oq & Hoq & Hle); [by rewrite Ep|].
      exists oq, new. split_and!; [by apply lookup_app_l_Some|done|done].
    + intros a o Ha. apply lookup_app_Some in Ha as [Ha|[_ Ha]].
      * eapply sib_ok_keeps; [done|by eapply Hkids].
      * apply list_lookup_singleton_Some in Ha as [_ <-]. apply sib_ok_nil.
    + by exists new.
  - pose proof (Forall_inv Hst_rest) as (op & Hop & Hlp). cbn in Hop, Hlp.
    pose proof (lookup_lt_Some _ _ _ Hop) as Hpn. fold n in Hpn.
    assert (Hkeep : keeps_levels (heap st)
                      (alter (push_child n) p (heap st ++ [new]))).
    { eapply keeps_levels_trans; [done|apply keeps_levels_push]. }
    assert (Hnew' : alter (push_child n) p (heap st ++ [new]) !! n = Some new).
    { rewrite list_lookup_alter_ne by lia. done. }
    constructor; cbn [heap root stack].
    + by eapply sib_ok_keeps.
    + intros a o Ha. rewrite list_lookup_alter in Ha. case_decide as Hpa.
      * subst a. rewrite (lookup_app_l_Some _ _ _ _ Hop) in Ha.
        injection Ha as <-. cbn [push_child o_children].
        apply sib_ok_snoc; [eapply sib_ok_keeps; [done|by eapply Hkids]|].
        intros q Hq. destruct popped as [|e popped'] eqn:Ep.
        { cbn in Htop. destruct Htop as (o & Ho & Hleaf).
          assert (o = op) by congruence. subst o.
          rewrite Hleaf in Hq. discriminate. }
        rewrite <- Ep in *.
        destruct (popped_last_child _ _ _ _ _ _ Hsp Hst_pop ilv Hpop
                    ltac:(by rewrite Ep) op q Hop Hq) as (oq & Hoq & Hle).
        destruct (Hkeep _ _ Hoq) as (oq' & Hoq' & Eq).
        exists oq', new. split_and!; [done|done|cbn; lia].
      * apply lookup_app_Some in Ha as [Ha|[_ Ha]].
        -- eapply sib_ok_keeps; [done|by eapply Hkids].
        -- apply list_lookup_singleton_Some in Ha as [_ <-]. apply sib_ok_nil.
    + by exists new.
Qed.

Lemma build_inv_sib_fold flat : forall seen st,
  build_inv seen st -> build_inv_sib st ->
  build_inv_sib (fold_left buildTree_step flat st).
Proof.
  induction flat as [|item flat IH]; intros seen st Hinv Hsib; cbn; [done|].
  apply (IH (seen ++ [item])); [by apply build_inv_step|].
  by eapply build_inv_sib_step.
Qed.

Lemma build_inv_sib_loop flat : build_inv_sib (buildTree_loop flat).
Proof.
  apply (build_inv_sib_fold flat []); [apply build_inv_init|].
  apply build_inv_sib_init.
Qed.

(** ** Sibling order in the tree *)

Lemma sib_ok_tail h c cs : sib_ok h (c :: cs) -> sib_ok h cs.
Proof. intros Hs i c1 c2 H1 H2. by apply (Hs (S i)). Qed.

Lemma repr_siblings h s ts cs e :
  (forall a o, h !! a = Some o -> sib_ok h (o_children o)) ->
  repr_forest h s ts cs e -> sib_ok h cs -> siblings_ordered ts.
Proof.
  intros Hkids.
  induction 1 as [s|s o ks m ts cs e Ho Hk IHk Ht IHt]; intros Hs;
    constructor.
  - apply IHk. by eapply Hkids.
  - intros t' Ht'. destruct Ht as [|m o' ks' m' ts' cs' e' Ho' _ _]; [done|].
    cbn in Ht'. injection Ht' as <-.
    destruct (Hs 0%nat s m eq_refl eq_refl) as (o1 & o2 & H1 & H2 & Hle).
    assert (o1 = o) by congruence. assert (o2 = o') by congruence.
    subst. cbn. lia.
  - apply IHt. by eapply sib_ok_tail.
Qed.

Lemma buildTree_shape flat :
  exists ts,
    buildTree flat = Some ts /\ entry <$> flattenTree ts = flat /\
    Forall strictly_deeper ts /\ siblings_ordered ts.
Proof.
  destruct (buildTree_repr flat) as (ts & Hb & Hr & Hinv).
  destruct (buildTree_entries flat) as (ts' & Hb' & He).
  assert (ts' = ts) by congruence. subst ts'.
  pose proof (build_inv_sib_loop flat) as [Hroot Hkids _].
  exists ts. split_and!; [done|done| |].
  - eapply repr_deeper; [apply (inv_levels _ _ Hinv)|exact Hr].
  - by eapply repr_siblings.
Qed.

(** X5.  In the tree that [buildTree] returns, at every depth and among
    the roots, a heading is never deeper than the sibling before it. *)
Theorem buildTree_siblings_ordered (flat : list FlatHeading) :
  exists ts, buildTree flat = Some ts /\ siblings_ordered ts.
Proof.
  destruct (buildTree_shape flat) as (ts & Hb & _ & _ & Hs). by exists ts.
Qed.

(** ** The tree is the outline *)

Lemma deeper_run_app lvl run others :
  Forall (fun y => lvl < flat_level y) run ->
  (forall y, head others = Some y -> flat_level y <= lvl) ->
  deeper_run lvl (run ++ others) = (run, others).
Proof.
  intros Hrun Hothers. induction Hrun as [|y run Hy _ IH]; cbn.
  - destruct others as [|y others]; [done|]. cbn.
    pose proof (Hothers y eq_refl) as Hle.
    destruct (Z.ltb_spec lvl (flat_level y)); [lia|done].
  - destruct (Z.ltb_spec lvl (flat_level y)); [|lia]. by rewrite IH.
Qed.

Lemma occurs_deeper ts n :
  occurs n ts -> forall lvl,
  Forall strictly_deeper ts -> Forall (fun c => lvl < level c) ts ->
  lvl < level n.
Proof.
  induction 1 as [ts|t ts _ IH|t ts _ IH]; intros lvl Hd Hl.
  - by apply Forall_inv in Hl.
  - apply Forall_inv in Hd. apply Forall_inv in Hl.
    destruct Hd as [t Hkids Hsub]. pose proof (IH _ Hsub Hkids). lia.
  - apply Forall_inv_tail in Hd. apply Forall_inv_tail in Hl. by apply IH.
Qed.

Lemma flat_deeper ts lvl :
  Forall strictly_deeper ts -> Forall (fun c => lvl < level c) ts ->
  Forall (fun y => lvl < flat_level y) (entry <$> flattenTree ts).
Proof.
  intros Hd Hl. apply Forall_fmap, Forall_forall. intros n Hn. cbn.
  apply list_elem_of_In, occurs_flattenTree in Hn. by eapply occurs_deeper.
Qed.

Lemma outline_go_shape ts :
  siblings_ordered ts -> Forall strictly_deeper ts ->
  forall fuel, (length (flattenTree ts) <= fuel)%nat ->
    outline_go fuel (entry <$> flattenTree ts) = ts.
Proof.
  induction 1 as [|t ts _ IHk Hnext _ IHt]; intros Hd fuel Hfuel.
  - by destruct fuel.
  - apply Forall_cons in Hd as [Ht Hd]. destruct Ht as [t Hkids Hsub].
    rewrite flattenTree_cons in Hfuel |- *. cbn [length] in Hfuel.
    rewrite length_app in Hfuel.
    destruct fuel as [|fuel]; [lia|].
    rewrite fmap_cons, fmap_app. cbn [outline_go entry flat_level flat_id flat_text].
    rewrite deeper_run_app.
    + rewrite IHk, IHt by (done || lia). by destruct t.
    + by apply flat_deeper.
    + intros y Hy. destruct ts as [|t' ts]; [done|].
      rewrite flattenTree_cons in Hy. cbn in Hy. injection Hy as <-.
      cbn. by apply Hnext.
Qed.

(** X6.  [buildTree] returns the outline of the flat list: the children of
    a heading are the tree of the headings that follow it for as long as
    they are strictly deeper, and the first heading that is not deeper
    starts the next sibling. *)
Theorem buildTree_outline (flat : list FlatHeading) :
  buildTree flat = Some (outline flat).
Proof.
  destruct (buildTree_shape flat) as (ts & Hb & He & Hd & Hs).
  rewrite Hb. f_equal. unfold outline. rewrite <- He at 2.
  rewrite <- He, length_fmap. symmetry. by apply outline_go_shape.
Qed.

(* ===================================================================== *)
(** * Further properties: extractHeadings *)
(* ===================================================================== *)

Lemma forEach_heading_texts elements : forall index els flat,
  forEach_heading index elements = Some (els, flat) ->
  flat_text <$> flat
  = filter (fun t => t <> []) (heading_text <$> elements).
Proof.
  induction elements as [|el rest IH]; intros index els flat;
    cbn [forEach_heading].
  - by intros [= <- <-].
  - unfold heading_of.
    destruct (parseInt _) as [lvl|]; [|done].
    destruct (forEach_heading (S index) rest) as [[els' flat']|] eqn:Eloop;
      [|done].
    intros [= <- <-]. rewrite fmap_cons, filter_cons.
    specialize (IH _ _ _ Eloop).
    case_decide as Ht.
    + rewrite decide_False by by intros ?. done.
    + rewrite decide_True by done. rewrite fmap_cons. cbn [flat_text].
      by rewrite IH.
Qed.

Lemma extractHeadings_inv container els tree :
  extractHeadings container = Some (els, tree) ->
  exists flat,
    forEach_heading 0 (querySelectorAll container) = Some (els, flat) /\
    buildTree flat = Some tree /\ entry <$> flattenTree tree = flat.
Proof.
  unfold extractHeadings.
  destruct (forEach_heading _ _) as [[els' flat]|]; [|done].
  destruct (buildTree_entries flat) as (ts & Hb & He). rewrite Hb.
  intros [= <- <-]. by exists flat.
Qed.

Lemma extractHeadings_total container : is_Some (extractHeadings container).
Proof.
  destruct (forEach_heading_spec _ 0 (querySelectorAll_tags container))
    as (els & flat & Hloop & _).
  destruct (buildTree_entries flat) as (tree & Htree & _).
  unfold extractHeadings. rewrite Hloop, Htree. by eexists.
Qed.

(** X7.  No heading is lost and none is moved: the texts of the returned
    tree, in pre-order, are the normalized texts of the h1-h6 elements of
    the container, in document order, without the empty ones. *)
Theorem extractHeadings_texts (container : list DOM.Element) :
  exists els tree,
    extractHeadings container = Some (els, tree) /\
    text <$> flattenTree tree
    = filter (fun t => t <> [])
             (heading_text <$> querySelectorAll container).
Proof.
  destruct (extractHeadings_total container) as [[els tree] Hx].
  exists els, tree. split; [done|].
  destruct (extractHeadings_inv _ _ _ Hx) as (flat & Hloop & _ & He).
  rewrite <- (forEach_heading_texts _ _ _ _ Hloop), <- He, <- list_fmap_compose.
  done.
Qed.

(** ** Ids *)

Lemma heading_id_nonempty index el : heading_id index el <> "".
Proof. unfold heading_id. case_decide; [discriminate|done]. Qed.

Lemma synthesized_id_inj (i j : nat) :
  "heading-" +:+ pretty i = "heading-" +:+ pretty j -> i = j.
Proof. intros E. by apply (inj _), (inj pretty) in E. Qed.

Lemma forEach_heading_ids elements : forall index els flat,
  Forall (fun el => DOM.id el = "") elements ->
  forEach_heading index elements = Some (els, flat) ->
  Forall (fun f => exists j, (index <= j)%nat /\
                             flat_id f = "heading-" +:+ pretty j) flat /\
  NoDup (flat_id <$> flat).
Proof.
  induction elements as [|el rest IH]; intros index els flat Hempty; cbn.
  - intros [= <- <-]. split; constructor.
  - apply Forall_cons in Hempty as [Hel Hrest]. unfold heading_of.
    destruct (parseInt _) as [lvl|]; [|done].
    destruct (forEach_heading (S index) rest) as [[els' flat']|] eqn:Eloop;
      [|done].
    intros [= <- <-]. destruct (IH _ _ _ Hrest Eloop) as [Hids Hnd].
    assert (Hids' : Forall (fun f => exists j, (index <= j)%nat /\
                       flat_id f = "heading-" +:+ pretty j) flat').
    { eapply Forall_impl; [exact Hids|]. intros f (j & Hj & E).
      exists j. split; [lia|done]. }
    case_decide as Ht; [done|]. split.
    + constructor; [|done]. exists index. split; [lia|].
      cbn. unfold heading_id. by rewrite decide_True.
    + rewrite fmap_cons. apply NoDup_cons. split; [|done].
      cbn. unfold heading_id. rewrite decide_True by done.
      intros Hin. apply list_elem_of_fmap in Hin as (f & Ef & Hf).
      apply (proj1 (Forall_forall _ _) Hids) in Hf as (j & Hj & Ej).
      rewrite Ej in Ef. apply synthesized_id_inj in Ef. lia.
Qed.

(** X8.  No returned heading has an empty id; and when no h1-h6 element
    of the container has an id of its own, the ids of the returned
    headings are pairwise distinct. *)
Theorem extractHeadings_ids (container : list DOM.Element) :
  exists els tree,
    extractHeadings container = Some (els, tree) /\
    (forall n, occurs n tree -> id n <> "") /\
    (Forall (fun el => DOM.id el = "") (querySelectorAll container) ->
     NoDup (id <$> flattenTree tree)).
Proof.
  destruct (extractHeadings_total container) as [[els tree] Hx].
  exists els, tree. split; [done|].
  destruct (extractHeadings_inv _ _ _ Hx) as (flat & Hloop & _ & He).
  split.
  - intros n Hn.
    destruct (forEach_heading_spec _ 0 (querySelectorAll_tags container))
      as (els' & flat' & Hloop' & _ & Hflat).
    assert (flat' = flat) by congruence. subst flat'.
    apply occurs_flattenTree, list_elem_of_In in Hn.
    assert (Hin : In (entry n) flat).
    { rewrite <- He. apply list_elem_of_In, list_elem_of_fmap. by exists n. }
    destruct (Hflat _ Hin) as (k & el & _ & _ & _ & Hid & _).
    cbn in Hid. rewrite Hid. apply heading_id_nonempty.
  - intros Hempty.
    destruct (forEach_heading_ids _ _ _ _ Hempty Hloop) as [_ Hnd].
    rewrite <- He, <- list_fmap_compose in Hnd. exact Hnd.
Qed.

(** ** Extracting again *)

Lemma heading_of_again index el el' pushed :
  heading_of index el = Some (el', pushed) ->
  heading_of index el' = Some (el', pushed).
Proof.
  unfold heading_of. destruct (parseInt _) as [lvl|] eqn:Elvl; [|done].
  intros [= <- <-]. cbn [DOM.tagName DOM.textContent]. rewrite Elvl.
  assert (Hid : heading_id index
                  (DOM.mkElement (DOM.tagName el) (DOM.textContent el)
                                 (heading_id index el))
                = heading_id index el).
  { unfold heading_id at 1. cbn [DOM.id].
    by rewrite decide_False by apply heading_id_nonempty. }
  rewrite Hid. reflexivity.
Qed.

Lemma forEach_heading_again elements : forall index els flat,
  forEach_heading index elements = Some (els, flat) ->
  forEach_heading index els = Some (els, flat).
Proof.
  induction elements as [|el rest IH]; intros index els flat;
    cbn [forEach_heading].
  - by intros [= <- <-].
  - destruct (heading_of index el) as [[el' pushed]|] eqn:Eh; [|done].
    destruct (forEach_heading (S index) rest) as [[els' flat']|] eqn:Eloop;
      [|done].
    intros [= <- <-]. cbn [forEach_heading].
    by rewrite (heading_of_again _ _ _ _ Eh), (IH _ _ _ Eloop).
Qed.

Lemma forEach_heading_tags elements : forall index els flat,
  forEach_heading index elements = Some (els, flat) ->
  DOM.tagName <$> els = DOM.tagName <$> elements.
Proof.
  induction elements as [|el rest IH]; intros index els flat;
    cbn [forEach_heading].
  - by intros [= <- <-].
  - unfold heading_of. destruct (parseInt _) as [lvl|]; [|done].
    destruct (forEach_heading (S index) rest) as [[els' flat']|] eqn:Eloop;
      [|done].
    intros [= <- <-]. rewrite !fmap_cons. cbn [DOM.tagName].
    by rewrite (IH _ _ _ Eloop).
Qed.

Lemma querySelectorAll_all els :
  Forall (fun tag => tag ∈ heading_tags) (DOM.tagName <$> els) ->
  querySelectorAll els = els.
Proof.
  unfold querySelectorAll. induction els as [|el els IH]; [done|].
  rewrite fmap_cons. intros Hall. apply Forall_cons in Hall as [Hel Hall].
  rewrite filter_cons, decide_True by done. by rewrite IH.
Qed.

(** X9.  Extracting again changes nothing: on the elements that a first
    extraction returned, with the ids it assigned, and on any container
    whose h1-h6 elements are those, [extractHeadings] returns the same
    elements and the same tree. *)
Theorem extractHeadings_again
    (container : list DOM.Element)
    (els : list DOM.Element) (tree : list HeadingNode) :
  extractHeadings container = Some (els, tree) ->
  extractHeadings els = Some (els, tree) /\
  forall container',
    querySelectorAll container' = els ->
    extractHeadings container' = Some (els, tree).
Proof.
  intros Hx.
  destruct (extractHeadings_inv _ _ _ Hx) as (flat & Hloop & Hb & _).
  assert (Hagain : forall container',
    querySelectorAll container' = els ->
    extractHeadings container' = Some (els, tree)).
  { intros container' Hsel. unfold extractHeadings.
    by rewrite Hsel, (forEach_heading_again _ _ _ _ Hloop), Hb. }
  split; [|done]. apply Hagain, querySelectorAll_all.
  rewrite (forEach_heading_tags _ _ _ _ Hloop). apply Forall_fmap.
  apply querySelectorAll_tags.
Qed.

Lemma extractHeadings_again_witness :
  extractHeadings [DOM.mkElement "H1" (Some (js " A ")) "heading-0"]
  = Some ([DOM.mkElement "H1" (Some (js " A ")) "heading-0"],
          [mkHeadingNode "heading-0" (js "A") 1 []]).
Proof.
  refine (proj1 (extractHeadings_again
            [DOM.mkElement "P" None ""; DOM.mkElement "H1" (Some (js " A ")) ""]
            [DOM.mkElement "H1" (Some (js " A ")) "heading-0"]
            [mkHeadingNode "heading-0" (js "A") 1 []] _)).
  vm_compute. reflexivity.
Defined.

(* ===================================================================== *)
(** * Further properties: keyboard and focus *)
(* ===================================================================== *)

Section focus.
Context {engine : Engine}.

Lemma flatList_length_le st :
  (length (flatList st) <= length (flattenTree (headings st)))%nat.
Proof.
  unfold flatList, displayTree. destruct (truthy_text (searchQuery st)); [|done].
  pose proof (prune_flat_sublist (toLowerCase (searchQuery st)) (headings st))
    as Hsub.
  apply sublist_length in Hsub. by rewrite !length_fmap in Hsub.
Qed.

Lemma flatList_clear st : flatList (setSearchQuery [] st) = flattenTree (headings st).
Proof. reflexivity. Qed.

Lemma flatList_nonempty_len st :
  flatList st <> [] -> 0 < Z.of_nat (length (flatList st)).
Proof. destruct (flatList st); [done|]. cbn [length]. lia. Qed.

(** The outcomes of the tree's key handler. *)
Lemma handleKeyDown_cases document key st :
  fst (handleKeyDown document key st) = st \/
  flatList st <> [] /\
  (fst (handleKeyDown document key st)
   = setFocusedIndex
       (Z.min (focusedIndex st + 1) (Z.of_nat (length (flatList st)) - 1)) st \/
   fst (handleKeyDown document key st)
   = setFocusedIndex (Z.max (focusedIndex st - 1) 0) st \/
   fst (handleKeyDown document key st) = setFocusedIndex 0 st \/
   fst (handleKeyDown document key st)
   = setFocusedIndex (Z.of_nat (length (flatList st)) - 1) st \/
   (exists i, fst (handleKeyDown document key st)
              = setMobileOpen false (setActiveId (Some i) st)) \/
   fst (handleKeyDown document key st) = setSearchQuery [] st \/
   fst (handleKeyDown document key st) = setMobileOpen false st).
Proof.
  unfold handleKeyDown.
  destruct (Z.of_nat (length (flatList st)) =? 0) eqn:Elen; [by left|].
  assert (Hne : flatList st <> []).
  { intros E. rewrite E in Elen. discriminate. }
  destruct (String.eqb key "ArrowDown"); [right; split; [done|]; by left|].
  destruct (String.eqb key "ArrowUp");
    [right; split; [done|]; right; by left|].
  destruct (String.eqb key "Enter" || String.eqb key " ").
  { destruct ((0 <=? focusedIndex st) && _); [|by left].
    destruct (flatList st !! _) as [node|]; [|by left].
    unfold navigateTo. destruct (document (id node)); [|by left].
    right. split; [done|]. do 4 right. left. by eexists. }
  destruct (String.eqb key "Escape").
  { destruct (truthy_text (searchQuery st));
      [right; split; [done|]; do 5 right; by left|].
    destruct (mobileOpen st); [|by left].
    right. split; [done|]. do 6 right. done. }
  destruct (String.eqb key "Home");
    [right; split; [done|]; do 2 right; by left|].
  destruct (String.eqb key "End");
    [right; split; [done|]; do 3 right; by left|].
  by left.
Qed.

Lemma focus_valid_setFocusedIndex v st :
  -1 <= v < Z.of_nat (length (flatList st)) ->
  focus_valid (setFocusedIndex v st).
Proof. done. Qed.

Lemma focus_valid_clear st :
  focus_valid st -> focus_valid (setSearchQuery [] st).
Proof.
  unfold focus_valid. rewrite flatList_clear. cbn.
  pose proof (flatList_length_le st). lia.
Qed.

Lemma focus_valid_handleKeyDown document key st :
  focus_valid st -> focus_valid (fst (handleKeyDown document key st)).
Proof.
  intros Hv.
  destruct (handleKeyDown_cases document key st)
    as [->|[Hne [->|[->|[->|[->|[[i ->]|[->| ->]]]]]]]]; try done.
  all: try (apply focus_valid_setFocusedIndex;
            pose proof (flatList_nonempty_len _ Hne); unfold focus_valid in Hv;
            lia).
  by apply focus_valid_clear.
Qed.

Lemma focus_valid_bubble place key handled :
  focus_valid (fst handled) -> focus_valid (bubble place key handled).
Proof.
  unfold bubble, overlayKeyDown. intros Hv.
  destruct place; [done|]. destruct (stops _); [done|].
  by destruct (String.eqb key "Escape").
Qed.

(** X10.  The focused index stays the initial -1 or an index of the
    flattened list: this holds when the component is created, and every
    event keeps it; for a new extraction of the headings, provided the new
    list is longer than the focused index. *)
Theorem focus_valid_kept
    (document : string -> bool) (ev : Event) (st : State) :
  focus_valid st ->
  (forall hs, ev = HeadingsExtracted hs ->
     focusedIndex st < Z.of_nat (length (flatList (setHeadings hs st)))) ->
  focus_valid (handle document ev st) /\
  (forall window_defined ss, focus_valid (initial_state window_defined ss)).
Proof.
  intros Hv Hextract. split; [|done].
  destruct ev as [place key|value|place key|key| |i| | | |hs|i]; cbn [handle].
  - by apply focus_valid_bubble, focus_valid_handleKeyDown.
  - unfold focus_valid. cbn. lia.
  - apply focus_valid_bubble. unfold searchKeyDown.
    destruct (_ && _); [by apply focus_valid_clear|done].
  - unfold overlayKeyDown. by destruct (String.eqb key "Escape").
  - by apply focus_valid_clear.
  - unfold navigateTo. by destruct (document i).
  - done.
  - done.
  - done.
  - unfold focus_valid in *. specialize (Hextract hs eq_refl). cbn in *. lia.
  - done.
Qed.

Lemma handleKeyDown_Escape document st :
  flatList st <> [] ->
  fst (handleKeyDown document "Escape" st)
  = if truthy_text (searchQuery st) then setSearchQuery [] st
    else if mobileOpen st then setMobileOpen false st else st.
Proof.
  intros Hne. unfold handleKeyDown.
  pose proof (flatList_nonempty_len _ Hne) as Hlen.
  destruct (Z.eqb_spec (Z.of_nat (length (flatList st))) 0); [lia|]. cbn.
  destruct (truthy_text (searchQuery st)); [done|]. by destruct (mobileOpen st).
Qed.

(** X12.  Escape on the tree.  In the mobile drawer the press also
    reaches the overlay, so that one press always closes the drawer: on a
    non-empty list it clears the query, if there is one, in the same
    press, and on an empty list the query stays.  In the desktop pane,
    with a query and a non-empty list, the press clears the query, all
    headings are listed again and the drawer flag stays. *)
Theorem Escape_on_tree (document : string -> bool) (st : State) :
  mobileOpen (handle document (TreeKeyDown InDrawer "Escape") st) = false /\
  (flatList st <> [] ->
   handle document (TreeKeyDown InDrawer "Escape") st
   = setMobileOpen false (setSearchQuery [] st)) /\
  (flatList st = [] ->
   handle document (TreeKeyDown InDrawer "Escape") st = setMobileOpen false st) /\
  (flatList st <> [] -> searchQuery st <> [] ->
   handle document (TreeKeyDown InPane "Escape") st = setSearchQuery [] st /\
   flatList (handle document (TreeKeyDown InPane "Escape") st)
   = flattenTree (headings st) /\
   mobileOpen (handle document (TreeKeyDown InPane "Escape") st) = mobileOpen st).
Proof.
  assert (Hstops : stops (snd (handleKeyDown document "Escape" st)) = false).
  { unfold handleKeyDown. destruct (_ =? 0); [done|]. cbn.
    destruct (truthy_text (searchQuery st)); [done|].
    by destruct (mobileOpen st). }
  assert (Hdrawer : handle document (TreeKeyDown InDrawer "Escape") st
                    = setMobileOpen false (fst (handleKeyDown document "Escape" st))).
  { cbn [handle bubble]. by rewrite Hstops. }
  rewrite Hdrawer. split_and!.
  - done.
  - intros Hne. rewrite (handleKeyDown_Escape _ _ Hne).
    destruct st as [hs act ex [|c qu] fi mo]; cbn; [by destruct mo|done].
  - intros Hempty. unfold handleKeyDown. by rewrite Hempty.
  - intros Hne Hq. cbn [handle bubble].
    rewrite (handleKeyDown_Escape _ _ Hne), (proj2 (truthy_text_spec _) Hq).
    by split_and!.
Qed.

(** X13.  Enter and Space activate the focused heading: if the focused
    index is an index of the list and the heading's element exists, the
    heading becomes the active one and the mobile drawer closes, while the
    headings, the query, the focus and the expanded flag stay; the URL hash
    is replaced and the heading scrolled into view. *)
Theorem Enter_activates_focused
    (document : string -> bool) (key : string) (st : State)
    (i : nat) (node : HeadingNode) :
  key = "Enter" \/ key = " " ->
  flatList st !! i = Some node -> focusedIndex st = Z.of_nat i ->
  document (id node) = true ->
  handleKeyDown document key st
  = (mkState (headings st) (Some (id node)) (isExpanded st) (searchQuery st)
             (focusedIndex st) false,
     [PreventDefault; ReplaceHash (id node); ScrollIntoView (id node)]).
Proof.
  intros Hkey Hnode Hfocus Hdoc. unfold handleKeyDown.
  pose proof (lookup_lt_Some _ _ _ Hnode) as Hlt.
  destruct (Z.eqb_spec (Z.of_nat (length (flatList st))) 0); [lia|].
  assert (Hk : String.eqb key "ArrowDown" = false
               /\ String.eqb key "ArrowUp" = false
               /\ String.eqb key "Enter" || String.eqb key " " = true)
    by (destruct Hkey as [-> | ->]; done).
  destruct Hk as (-> & -> & ->).
  rewrite Hfocus, Nat2Z.id, Hnode.
  destruct (Z.leb_spec 0 (Z.of_nat i)); [|lia].
  destruct (Z.ltb_spec (Z.of_nat i) (Z.of_nat (length (flatList st)))); [|lia].
  cbn. unfold navigateTo. rewrite Hdoc. cbn.
  unfold setMobileOpen, setActiveId. cbn. by rewrite Hfocus.
Qed.

End focus.

Section focus_examples.
#[local] Existing Instance excerpt_engine.

Lemma focus_valid_kept_witness :
  focus_valid
    (handle (fun _ => true) (TreeKeyDown InPane "End")
       (mkState [mkHeadingNode "a" (js "A") 1 []; mkHeadingNode "b" (js "B") 1 []]
                None true [] (-1) false)).
Proof.
  refine (proj1 (focus_valid_kept (fun _ => true) (TreeKeyDown InPane "End") _ _ _)).
  - vm_compute. split; [intros H; discriminate H|reflexivity].
  - intros hs H. discriminate H.
Defined.

Lemma Enter_activates_focused_witness :
  fst (handleKeyDown (fun _ => true) "Enter"
         (mkState [mkHeadingNode "a" (js "Intro") 1 []] None true [] 0 true))
  = mkState [mkHeadingNode "a" (js "Intro") 1 []] (Some "a") true [] 0 false.
Proof.
  rewrite (Enter_activates_focused (fun _ => true) "Enter"
             (mkState [mkHeadingNode "a" (js "Intro") 1 []] None true [] 0 true)
             0 (mkHeadingNode "a" (js "Intro") 1 [])).
  - reflexivity.
  - left. reflexivity.
  - reflexivity.
  - reflexivity.
  - reflexivity.
Defined.

End focus_examples.

(* ===================================================================== *)
(** * Further properties: panel, rail and items *)
(* ===================================================================== *)

Section panel.
Context {engine : Engine}.

Lemma toggle_twice document tab :
  in_sync tab ->
  step true document ToggleClick (step true document ToggleClick tab) = tab.
Proof.
  destruct tab as [[hs act ex qu fi mo] ss]. unfold in_sync, step. cbn.
  intros Hsync. rewrite negb_involutive.
  replace (Bool.eqb (negb ex) ex) with false by by destruct ex.
  replace (Bool.eqb ex (negb ex)) with false by by destruct ex.
  unfold persist_expanded. cbn. f_equal.
  rewrite insert_insert_eq. by apply insert_id.
Qed.

(** X14.  Collapsing and expanding the panel again (or the reverse) gives
    back the component state and the session storage as they were, at any
    time after the component was mounted in the browser. *)
Theorem toggle_round_trip
    (document : string -> bool) (ss : gmap string string) (evs : list Event) :
  step true document ToggleClick
    (step true document ToggleClick
       (fold_left (fun t ev => step true document ev t) evs (mount true ss)))
  = fold_left (fun t ev => step true document ev t) evs (mount true ss).
Proof. apply toggle_twice, run_in_sync, mount_in_sync. Qed.

(** X15.  The collapsed rail shows at most 40 dots, for the first
    headings of the whole tree in pre-order: the filter query has no
    effect on it. *)
Theorem collapsed_rail (st : State) (v : View) :
  DocumentOutline true st = Some v -> isExpanded st = false ->
  exists dots,
    desktop v = Rail dots /\
    (length dots <= 40)%nat /\
    dots `prefix_of` flattenTree (headings st) /\
    forall query v',
      DocumentOutline true (setSearchQuery query st) = Some v' ->
      desktop v' = Rail dots.
Proof.
  unfold DocumentOutline. cbn [negb orb headings setSearchQuery isExpanded].
  destruct (length (headings st) =? 0)%nat; [done|].
  intros [= <-] Hex. rewrite Hex. cbn [desktop].
  eexists. split_and!; [reflexivity| |apply prefix_take|].
  - rewrite length_take. lia.
  - by intros query v' [= <-].
Qed.

Lemma focused_items_count (active : option string) (fi : Z) l : forall k,
  length (filter (fun it => tabIndex it = 0)
            (imap (fun i node =>
                     FlatOutlineItem node active (fi =? Z.of_nat (k + i))) l))
  = if decide (Z.of_nat k <= fi < Z.of_nat (k + length l)) then 1%nat else 0%nat.
Proof.
  induction l as [|node l IH]; intros k.
  - cbn. case_decide; [lia|done].
  - rewrite imap_cons, filter_cons.
    rewrite (imap_ext _ (fun i node =>
               FlatOutlineItem node active (fi =? Z.of_nat (S k + i))))
      by (intros i x _; cbn; do 2 f_equal; lia).
    specialize (IH (S k)). cbn [length].
    rewrite Nat.add_0_r. cbn [FlatOutlineItem tabIndex].
    destruct (Z.eqb_spec fi (Z.of_nat k)) as [->|Hne].
    + rewrite decide_True by done. cbn [length]. rewrite IH.
      rewrite decide_False by lia. rewrite decide_True by lia. done.
    + rewrite decide_False by done. rewrite IH.
      repeat case_decide; done || lia.
Qed.

(** X16.  Roving tab index: among the rendered outline items exactly one
    has [tabIndex] 0, the one at the focused index, when the focused index
    is an index of the list; otherwise none has. *)
Theorem one_item_in_tab_order (st : State) :
  length (filter (fun it => tabIndex it = 0) (tree_items st))
  = (if decide (0 <= focusedIndex st < Z.of_nat (length (flatList st)))
     then 1%nat else 0%nat) /\
  (forall i item, tree_items st !! i = Some item ->
     (tabIndex item = 0 <-> focusedIndex st = Z.of_nat i)).
Proof.
  split.
  - unfold tree_items.
    pose proof (focused_items_count (activeId st) (focusedIndex st)
                  (flatList st) 0) as H.
    cbn [Nat.add] in H. exact H.
  - intros i item. unfold tree_items. rewrite list_lookup_imap.
    destruct (flatList st !! i) as [node|]; [|done]. intros [= <-]. cbn.
    destruct (Z.eqb_spec (focusedIndex st) (Z.of_nat i)); split; done.
Qed.

Lemma flattenTree_nil_iff (l : list HeadingNode) : flattenTree l = [] <-> l = [].
Proof.
  split; [|by intros ->]. destruct l as [|n l]; [done|].
  by rewrite flattenTree_cons.
Qed.

(** X24.  The tree region shows the placeholder exactly when the query is
    not empty and no heading, at any depth, contains it, both in lower
    case; in every other case it lists the items of the flattened
    (filtered) tree. *)
Theorem placeholder_iff (st : State) :
  (tree_region (outlineContent st) = Placeholder (searchQuery st) <->
   searchQuery st <> [] /\
   forall n, occurs n (headings st) ->
     ~ lower_contains (text n) (searchQuery st)) /\
  (tree_region (outlineContent st) = Placeholder (searchQuery st) \/
   tree_region (outlineContent st) = Items (flatList st)).
Proof.
  assert (Hnone :
    (forall n, occurs n (headings st) ->
       ~ lower_contains (text n) (searchQuery st)) <->
    filterTree (headings st) (searchQuery st) = [])
    by (symmetry; apply no_match_iff).
  unfold outlineContent. cbn [tree_region].
  unfold flatList, displayTree.
  destruct (truthy_text (searchQuery st)) eqn:Eq.
  - apply truthy_text_spec in Eq. rewrite andb_true_r.
    destruct (Nat.eqb_spec (length (flattenTree
               (filterTree (headings st) (searchQuery st)))) 0) as [E|E].
    + apply length_zero_iff_nil in E.
      apply (proj1 (flattenTree_nil_iff _)) in E.
      split; [|by left]. split; [|done]. intros _. split; [done|].
      exact (proj2 Hnone E).
    + split; [|by right]. split; [done|]. intros [_ H].
      apply (proj1 Hnone) in H. rewrite H in E. done.
  - apply not_true_iff_false in Eq. rewrite truthy_text_spec in Eq.
    rewrite andb_false_r. split; [|by right]. split; [done|].
    intros [Hq _]. by destruct Eq.
Qed.

End panel.

Section panel_examples.
#[local] Existing Instance excerpt_engine.

Lemma collapsed_rail_witness :
  exists dots,
    desktop (mkView (Rail [mkHeadingNode "intro" (js "Intro") 1 []]) FloatingButton)
    = Rail dots /\ (length dots <= 40)%nat.
Proof.
  destruct (collapsed_rail collapsed_with_query
              (mkView (Rail [mkHeadingNode "intro" (js "Intro") 1 []]) FloatingButton)
              eq_refl eq_refl) as (dots & Hd & Hlen & _).
  exists dots. split; [exact Hd|exact Hlen].
Defined.

End panel_examples.

(* ===================================================================== *)
(** * Further properties: scroll tracking *)
(* ===================================================================== *)

Example nearest_above_ex :
  nearest_above 500 None
    [mkBox "a" 0; mkBox "b" 300; mkBox "c" 580; mkBox "d" 581; mkBox "e" 900]
  = (Some "c", Some 0).
Proof. reflexivity. Qed.

Section scroll.
Variables (scrollTop : Z) (rootOffsetTop : option Z).

Lemma nearest_ok_step seen acc el :
  nearest_ok scrollTop rootOffsetTop seen acc ->
  nearest_ok scrollTop rootOffsetTop (seen ++ [el])
             (nearest_step scrollTop rootOffsetTop acc el).
Proof.
  unfold nearest_step. destruct acc as [[best|] [bd|]]; cbn [snd]; try done.
  - intros (before & e0 & after & -> & -> & -> & H0 & Hb & Ha).
    destruct (Z.leb_spec 0 (dist scrollTop rootOffsetTop el));
      destruct (Z.ltb_spec (dist scrollTop rootOffsetTop el)
                           (dist scrollTop rootOffsetTop e0)); cbn [andb].
    + exists (before ++ e0 :: after), el, []. split_and!; try done.
      apply Forall_app. split; [|constructor].
      * eapply Forall_impl; [exact Hb|]. intros e He Hpos. specialize (He Hpos). lia.
      * lia.
      * eapply Forall_impl; [exact Ha|]. intros e He Hpos. specialize (He Hpos). lia.
    + exists before, e0, (after ++ [el]).
      split_and!; try done; [by rewrite <- app_assoc|].
      apply Forall_app. split; [done|]. constructor; [lia|constructor].
    + exists before, e0, (after ++ [el]).
      split_and!; try done; [by rewrite <- app_assoc|].
      apply Forall_app. split; [done|]. constructor; [lia|constructor].
    + exists before, e0, (after ++ [el]).
      split_and!; try done; [by rewrite <- app_assoc|].
      apply Forall_app. split; [done|]. constructor; [lia|constructor].
  - intros Hall.
    destruct (Z.leb_spec 0 (dist scrollTop rootOffsetTop el)); cbn [andb].
    + exists seen, el, []. split_and!; try done.
      eapply Forall_impl; [exact Hall|]. intros e He Hpos. cbn beta in *. lia.
    + apply Forall_app. split; [done|]. by constructor.
Qed.

Lemma nearest_ok_fold elements : forall seen acc,
  nearest_ok scrollTop rootOffsetTop seen acc ->
  nearest_ok scrollTop rootOffsetTop (seen ++ elements)
    (fold_left (nearest_step scrollTop rootOffsetTop) elements acc).
Proof.
  induction elements as [|el elements IH]; intros seen acc Hok; cbn.
  - by rewrite app_nil_r.
  - replace (seen ++ el :: elements) with ((seen ++ [el]) ++ elements)
      by by rewrite <- app_assoc.
    by apply IH, nearest_ok_step.
Qed.

Lemma nearest_above_ok elements :
  nearest_ok scrollTop rootOffsetTop elements
             (nearest_above scrollTop rootOffsetTop elements).
Proof. apply (nearest_ok_fold elements [] (None, None)). constructor. Qed.

(** X17.  The scroll handlers pick the heading nearest to the line 80
    pixels below the scroll position among the headings at or above that
    line, the first one of them if several are equally near; they pick
    none exactly when every heading is below the line, and then the active
    heading stays as it was. *)
Theorem nearest_above_spec (elements : list HeadingBox) (st : State) :
  (fst (nearest_above scrollTop rootOffsetTop elements) = None <->
   Forall (fun el => dist scrollTop rootOffsetTop el < 0) elements) /\
  (forall best,
     fst (nearest_above scrollTop rootOffsetTop elements) = Some best ->
     exists before el after,
       elements = before ++ el :: after /\ best = box_id el /\
       0 <= dist scrollTop rootOffsetTop el /\
       Forall (fun e => 0 <= dist scrollTop rootOffsetTop e ->
                 dist scrollTop rootOffsetTop el
                 < dist scrollTop rootOffsetTop e) before /\
       Forall (fun e => 0 <= dist scrollTop rootOffsetTop e ->
                 dist scrollTop rootOffsetTop el
                 <= dist scrollTop rootOffsetTop e) after) /\
  (Forall (fun el => dist scrollTop rootOffsetTop el < 0) elements ->
   track_scroll scrollTop rootOffsetTop elements st = st).
Proof.
  pose proof (nearest_above_ok elements) as Hok. unfold track_scroll.
  destruct (nearest_above scrollTop rootOffsetTop elements)
    as [[best|] [bd|]]; cbn [fst] in *; try done.
  destruct Hok as (before & el & after & -> & -> & -> & H0 & Hb & Ha).
  split_and!.
  - split; [done|]. intros Hall.
    apply Forall_app in Hall as [_ Hall]. apply Forall_inv in Hall. lia.
  - intros ? [= <-]. by exists before, el, after.
  - intros Hall.
    apply Forall_app in Hall as [_ Hall]. apply Forall_inv in Hall. lia.
Qed.

Lemma nearest_below_skip elements : forall acc,
  Forall (fun el => dist scrollTop rootOffsetTop el < 0) elements ->
  fold_left (nearest_step scrollTop rootOffsetTop) elements acc = acc.
Proof.
  induction elements as [|el elements IH]; intros acc Hall; cbn; [done|].
  apply Forall_cons in Hall as [Hel Hall]. unfold nearest_step at 2.
  destruct (Z.leb_spec 0 (dist scrollTop rootOffsetTop el)); [lia|].
  cbn [andb]. by apply IH.
Qed.

(** X18.  With the headings laid out from top to bottom, the active
    heading becomes the last heading at or above the line 80 pixels below
    the scroll position. *)
Theorem track_scroll_last_above
    (before after : list HeadingBox) (el : HeadingBox) (st : State) :
  Forall (fun e => offsetTop e < offsetTop el) before ->
  0 <= dist scrollTop rootOffsetTop el ->
  Forall (fun e => dist scrollTop rootOffsetTop e < 0) after ->
  box_id el <> "" ->
  track_scroll scrollTop rootOffsetTop (before ++ el :: after) st
  = setActiveId (Some (box_id el)) st.
Proof.
  intros Hbefore Hel Hafter Hid. unfold track_scroll, nearest_above.
  rewrite fold_left_app. cbn [fold_left].
  pose proof (nearest_above_ok before) as Hok. unfold nearest_above in Hok.
  assert (Hstep :
    nearest_step scrollTop rootOffsetTop
      (fold_left (nearest_step scrollTop rootOffsetTop) before (None, None)) el
    = (Some (box_id el), Some (dist scrollTop rootOffsetTop el))).
  { unfold nearest_step.
    destruct (fold_left _ before _) as [[best|] [bd|]]; cbn [snd] in *;
      try done.
    - destruct Hok as (b & e0 & a & -> & -> & -> & H0 & _).
      apply Forall_app in Hbefore as [_ Hbefore]. apply Forall_inv in Hbefore.
      destruct (Z.leb_spec 0 (dist scrollTop rootOffsetTop el)); [|lia].
      destruct (Z.ltb_spec (dist scrollTop rootOffsetTop el)
                           (dist scrollTop rootOffsetTop e0)); [done|].
      unfold dist in *. destruct rootOffsetTop; lia.
    - destruct (Z.leb_spec 0 (dist scrollTop rootOffsetTop el)); [done|lia]. }
  rewrite Hstep, (nearest_below_skip _ _ Hafter). cbn [fst].
  by rewrite (proj2 (truthy_spec _) Hid).
Qed.
End scroll.

Lemma track_scroll_last_above_witness :
  track_scroll 500 None
    ([mkBox "a" 0; mkBox "b" 300] ++ mkBox "c" 580 :: [mkBox "d" 900])
    (initial_state true ∅)
  = setActiveId (Some "c") (initial_state true ∅).
Proof.
  apply (track_scroll_last_above 500 None
           [mkBox "a" 0; mkBox "b" 300] [mkBox "d" 900] (mkBox "c" 580)).
  - repeat constructor.
  - vm_compute. intros H. discriminate H.
  - repeat constructor.
  - intros H. discriminate H.
Defined.

(* ===================================================================== *)
(** * Further properties: the image-proxy route *)
(* ===================================================================== *)

(** X19.  The response depends on the upstream through one request
    only, the request for the [url] parameter with the headers of
    [upstream_init], the token in [Authorization]: with the same URL
    parser and the same token, a [fetch] that answers this request alike
    gives the same response; and where the responses differ, the request
    passed every check and the two answers to it differ. *)
Theorem GET_one_upstream_request (p : Platform) (request : NextRequest)
    (fetch' : string -> RequestInit -> FetchResult) :
  let p' := mkPlatform (URL_parse p) (getGitHubToken p) fetch' in
  ((forall url token,
      searchParams_get "url" (searchParams request) = Some url ->
      getGitHubToken p = Some token ->
      fetch' url (upstream_init token) = fetch p url (upstream_init token)) ->
   GET p' request = GET p request) /\
  (GET p' request <> GET p request ->
   exists url parsed token,
     searchParams_get "url" (searchParams request) = Some url /\
     URL_parse p url = Some parsed /\
     hostname parsed ∈ ALLOWED_HOSTS /\
     getGitHubToken p = Some token /\ token <> "" /\
     In ("Authorization", "token " +:+ token)
        (init_headers (upstream_init token)) /\
     fetch' url (upstream_init token) <> fetch p url (upstream_init token)).
Proof.
  cbv zeta. unfold GET. cbn [URL_parse getGitHubToken].
  destruct (searchParams_get "url" (searchParams request)) as [url|];
    [|by split].
  destruct (truthy url); cbn [negb]; [|by split].
  destruct (URL_parse p url) as [parsed|] eqn:Eparse; [|by split].
  destruct (bool_decide (hostname parsed ∈ ALLOWED_HOSTS)) eqn:Ehost;
    cbn [negb]; [|by split].
  destruct (getGitHubToken p) as [token|] eqn:Etok; [|by split].
  destruct (truthy token) eqn:Etruthy; cbn [negb]; [|by split].
  unfold proxy. cbn [fetch]. split.
  - intros Hsame. by rewrite (Hsame url token eq_refl eq_refl).
  - intros Hdiff. exists url, parsed, token.
    apply bool_decide_eq_true in Ehost. apply truthy_spec in Etruthy.
    split_and!; [done..|by left|]. intros Hsame. apply Hdiff.
    by rewrite Hsame.
Qed.

(** X20.  Every response of the route is of one of two kinds: the
    upstream bytes with status 200 and the header
    [Cache-Control: public, max-age=3600, immutable]; or a JSON error
    whose status is not a 2xx one when it is the upstream's, or is one of
    400, 401, 403 and 502, and which has no Cache-Control header. *)
Theorem GET_response_kinds (p : Platform) (request : NextRequest) :
  (exists bytes,
     NextResponse.body (GET p request) = NextResponse.Buffer bytes /\
     NextResponse.status (GET p request) = 200 /\
     NextResponse.header "Cache-Control" (GET p request)
     = Some "public, max-age=3600, immutable") \/
  (is_error (GET p request) /\
   ~ (200 <= NextResponse.status (GET p request) <= 299) /\
   NextResponse.header "Cache-Control" (GET p request) = None).
Proof.
  assert (Herr : forall msg st, ~ (200 <= st <= 299) ->
    is_error (NextResponse.json_error msg st) /\
    ~ (200 <= NextResponse.status (NextResponse.json_error msg st) <= 299) /\
    NextResponse.header "Cache-Control" (NextResponse.json_error msg st) = None).
  { intros msg st Hst. split_and!; [by exists msg|done|reflexivity]. }
  unfold GET.
  destruct (searchParams_get "url" (searchParams request)) as [url|];
    [|right; apply Herr; lia].
  destruct (truthy url); cbn [negb]; [|right; apply Herr; lia].
  destruct (URL_parse p url) as [parsed|]; [|right; apply Herr; lia].
  destruct (bool_decide _); cbn [negb]; [|right; apply Herr; lia].
  destruct (getGitHubToken p) as [token|]; [|right; apply Herr; lia].
  destruct (truthy token); cbn [negb]; [|right; apply Herr; lia].
  unfold proxy.
  destruct (fetch p url (upstream_init token)) as [|res];
    [right; apply Herr; lia|].
  destruct (Response.ok res) eqn:Eok; cbn [negb].
  - destruct (Response.arrayBuffer res) as [bytes|]; [|right; apply Herr; lia].
    left. exists bytes. split_and!; reflexivity.
  - right. unfold NextResponse.json.
    destruct (NextResponse.refused_status (Response.status res));
      apply Herr; [lia|].
    unfold Response.ok in Eok. apply andb_false_iff in Eok. lia.
Qed.

(* ===================================================================== *)
(** * Further properties: the workflow-run job page *)
(* ===================================================================== *)

Lemma string_app_cons c a b : String c a +:+ b = String c (a +:+ b).
Proof. reflexivity. Qed.

Lemma string_app_assoc a b c : (a +:+ b) +:+ c = a +:+ b +:+ c.
Proof.
  induction a as [|x a IH]; [done|]. by rewrite !string_app_cons, IH.
Qed.

Module RunPageFacts.
Import RunPage.

Section page.
Context {Jobs : Type}.
Variable parseInt10 : string -> option Z.
Variable getWorkflowRun : string -> string -> Z -> option WorkflowRun.
Variable getWorkflowRunJobs : string -> string -> Z -> Jobs.

(** X21.  The page and its title agree: whenever the page renders a run
    (it does so exactly when the run id and the job id are numbers and the
    run exists), that run is the one fetched for the parsed run id, the
    initial job is the parsed job id, and the title is the title of that
    run. *)
Theorem page_shows_titled_run (params : Params) :
  (WorkflowRunJobPage parseInt10 getWorkflowRun getWorkflowRunJobs params
   = NotFound <->
   parseInt10 (runId params) = None \/ parseInt10 (jobId params) = None \/
   exists n, parseInt10 (runId params) = Some n /\
             getWorkflowRun (owner params) (repo params) n = None) /\
  (forall o r run jobs job,
     WorkflowRunJobPage parseInt10 getWorkflowRun getWorkflowRunJobs params
     = RunDetail o r run jobs job ->
     o = owner params /\ r = repo params /\
     parseInt10 (jobId params) = Some job /\
     (exists n, parseInt10 (runId params) = Some n /\
                getWorkflowRun (owner params) (repo params) n = Some run /\
                jobs = getWorkflowRunJobs (owner params) (repo params) n) /\
     generateMetadata parseInt10 getWorkflowRun params
     = run_title run (owner params) (repo params)).
Proof.
  unfold WorkflowRunJobPage, generateMetadata.
  destruct (parseInt10 (runId params)) as [n|];
    [|split; [split; [by left|done]|done]].
  destruct (parseInt10 (jobId params)) as [j|];
    [|split; [split; [right; by left|done]|done]].
  destruct (getWorkflowRun (owner params) (repo params) n) as [run|] eqn:Erun.
  - split.
    + split; [done|]. intros [?|[?|(n' & [= <-] & Hn)]]; congruence.
    + intros o r run' jobs job [= <- <- <- <- <-].
      split_and!; [done..| |done]. by exists n.
  - split; [|done]. split; [|done]. intros _. right. right. by exists n.
Qed.

Lemma title_suffix (a b c : string) : (a +:+ b) +:+ c = a +:+ b +:+ c.
Proof. apply string_app_assoc. Qed.

(** X22.  Whatever the run id is and whether or not the run exists, the
    title ends with the dot and the repository, [" · owner/repo"]. *)
Theorem title_names_repository (params : Params) :
  exists head,
    generateMetadata parseInt10 getWorkflowRun params
    = head +:+ " " +:+ middle_dot +:+ " " +:+ owner params +:+ "/"
      +:+ repo params.
Proof.
  unfold generateMetadata.
  destruct (parseInt10 (runId params)) as [n|]; [|by exists "Run"].
  destruct (getWorkflowRun (owner params) (repo params) n) as [run|].
  - unfold run_title.
    set (shown := match name run with
                  | Some n => if truthy n then n else display_title run
                  | None => display_title run
                  end).
    exists (shown +:+ " #" +:+ pretty (run_number run)).
    by rewrite !title_suffix.
  - exists ("Run #" +:+ runId params). by rewrite !title_suffix.
Qed.
End page.
End RunPageFacts.
